(** * APIproxy: a pass-through proxy for /v1/chat/completions

    A shallow embedding of [code/APIproxy.py] and the properties of its
    header filters, its streaming classifier and its relay engine.

    Python values are modelled as the code has them:
    - [str] header names and values are [string]: the ASGI server and the
      HTTP client hand header names over as Latin-1 text, one code point
      below 256 per character, which is exactly Rocq's [ascii];
    - [bytes] bodies and chunks are [list byte];
    - a [dict] is an association list in insertion order whose keys are
      pairwise distinct, updated in place by [dict_set];
    - a [set] literal is a [gset];
    - exceptions are values of [exn], outcomes of fallible code are sums. *)

From Stdlib Require Import ZArith NArith List String Ascii Strings.Byte Bool Lia.
From stdpp Require Import base gmap strings list.
Import ListNotations.
Local Open Scope string_scope.
Local Open Scope list_scope.

(* ===================================================================== *)
(** * Python strings *)
(* ===================================================================== *)

(** [str.lower()] on one Latin-1 code point: the upper-case letters are
    A-Z (0x41-0x5A) and 0xC0-0xDE without the multiplication sign 0xD7;
    each maps to the code point 32 above it, all others to themselves. *)
Definition lower_char (c : ascii) : ascii :=
  let n := N_of_ascii c in
  if ((65 <=? n) && (n <=? 90))%N
     || ((192 <=? n) && (n <=? 222) && negb (n =? 215))%N
  then ascii_of_N (n + 32)
  else c.

(** [k.lower()] *)
Fixpoint lower (s : string) : string :=
  match s with
  | EmptyString => EmptyString
  | String c s' => String (lower_char c) (lower s')
  end.

(** [s.rstrip('/')]: drops every trailing slash. *)
Fixpoint rstrip_slash (s : string) : string :=
  match s with
  | EmptyString => EmptyString
  | String c s' =>
      match rstrip_slash s' with
      | EmptyString => if Ascii.eqb c "/" then EmptyString else String c EmptyString
      | t => String c t
      end
  end.

(* ===================================================================== *)
(** * Python dictionaries *)
(* ===================================================================== *)

(** Items in insertion order. *)
Abbreviation dict K V := (list (K * V)).

Section Dict.
Context {K V : Type} `{EqDecision K}.

(** [d.get(k)], [None] when the key is absent. *)
Fixpoint dict_get (d : dict K V) (k : K) : option V :=
  match d with
  | [] => None
  | (k', v') :: d' => if decide (k' = k) then Some v' else dict_get d' k
  end.

(** [d[k] = v]: an existing key keeps its place and takes the new value,
    a new key goes to the end. *)
Fixpoint dict_set (d : dict K V) (k : K) (v : V) : dict K V :=
  match d with
  | [] => [(k, v)]
  | (k', v') :: d' =>
      if decide (k' = k) then (k', v) :: d' else (k', v') :: dict_set d' k v
  end.

(** The keys of a dictionary are pairwise distinct. *)
Definition dict_wf (d : dict K V) : Prop := NoDup d.*1.
End Dict.

(* ===================================================================== *)
(** * Header filters *)
(* ===================================================================== *)

(** A header mapping, [Dict[str, str]]. *)
Abbreviation headers := (dict string string).

Definition hop_by_hop_upstream : gset string :=
  {[ "host"; "content-length"; "connection"; "keep-alive";
     "proxy-authenticate"; "proxy-authorization"; "te"; "trailers";
     "transfer-encoding"; "upgrade"; "accept-encoding" ]}.

Definition hop_by_hop_client : gset string :=
  {[ "connection"; "keep-alive"; "proxy-authenticate";
     "proxy-authorization"; "te"; "trailers"; "transfer-encoding";
     "upgrade"; "content-encoding" ]}.

(** Both filters run the same loop over the items of their argument,
    from an empty [new_headers]; each has its own [hop_by_hop] set. *)
Definition _filtered_headers_for_upstream (original_headers : headers) : headers :=
  fold_left
    (fun new_headers '(k, v) =>
       let lk := lower k in
       if bool_decide (lk ∈ hop_by_hop_upstream) then new_headers
       else dict_set new_headers k v)
    original_headers [].

Definition _filtered_headers_for_client (upstream_headers : headers) : headers :=
  fold_left
    (fun new_headers '(k, v) =>
       let lk := lower k in
       if bool_decide (lk ∈ hop_by_hop_client) then new_headers
       else dict_set new_headers k v)
    upstream_headers [].

(** The two directions of the header filter and their exclusion sets. *)
Inductive direction := ToUpstream | ToClient.

Definition exclusion_set (dir : direction) : gset string :=
  match dir with
  | ToUpstream => hop_by_hop_upstream
  | ToClient => hop_by_hop_client
  end.

Definition header_filter (dir : direction) : headers -> headers :=
  match dir with
  | ToUpstream => _filtered_headers_for_upstream
  | ToClient => _filtered_headers_for_client
  end.

(** The loop shared by the two filters, over any exclusion set. *)
Definition filter_step (excl : gset string) (new_headers : headers)
    (kv : string * string) : headers :=
  let '(k, v) := kv in
  if bool_decide (lower k ∈ excl) then new_headers else dict_set new_headers k v.

(** An entry is retained when its lower-cased key is outside the set. *)
Definition retained (excl : gset string) (kv : string * string) : Prop :=
  lower kv.1 ∉ excl.

#[global] Instance retained_dec excl kv : Decision (retained excl kv).
Proof. unfold retained. apply _. Defined.

(* ===================================================================== *)
(** * Bytes and text *)
(* ===================================================================== *)

Definition bytes : Type := list byte.

(** A Python [str] as the sequence of its code points; used for the text
    of the request body, whose characters are not limited to Latin-1. *)
Definition pystr : Type := list N.

(** The code points of an ASCII literal. *)
Definition pystr_of_string (s : string) : pystr :=
  map Byte.to_N (list_byte_of_string s).

(** [if chunk:] on a [bytes] value. *)
Definition bytes_truthy (b : bytes) : bool :=
  match b with [] => false | _ :: _ => true end.

Definition in_range (lo hi n : N) : bool := ((lo <=? n) && (n <=? hi))%N.

(** A UTF-8 continuation byte contributes its low six bits. *)
Definition cont (b : N) : N := N.land b 63.

(** [body.decode("utf-8")]: strict decoding, [None] for the
    [UnicodeDecodeError] raised on truncated, overlong, surrogate or
    out-of-range sequences. *)
Fixpoint utf8_decode_N (bs : list N) : option pystr :=
  match bs with
  | [] => Some []
  | b0 :: r0 =>
      if (b0 <? 128)%N then cons b0 <$> utf8_decode_N r0
      else if in_range 194 223 b0 then
        match r0 with
        | b1 :: r1 =>
            if in_range 128 191 b1
            then cons (N.land b0 31 * 64 + cont b1)%N <$> utf8_decode_N r1
            else None
        | _ => None
        end
      else if in_range 224 239 b0 then
        match r0 with
        | b1 :: b2 :: r2 =>
            let lo := if (b0 =? 224)%N then 160%N else 128%N in
            let hi := if (b0 =? 237)%N then 159%N else 191%N in
            if in_range lo hi b1 && in_range 128 191 b2
            then cons (N.land b0 15 * 4096 + cont b1 * 64 + cont b2)%N
                   <$> utf8_decode_N r2
            else None
        | _ => None
        end
      else if in_range 240 244 b0 then
        match r0 with
        | b1 :: b2 :: b3 :: r3 =>
            let lo := if (b0 =? 240)%N then 144%N else 128%N in
            let hi := if (b0 =? 244)%N then 143%N else 191%N in
            if in_range lo hi b1 && in_range 128 191 b2 && in_range 128 191 b3
            then cons (N.land b0 7 * 262144 + cont b1 * 4096
                       + cont b2 * 64 + cont b3)%N <$> utf8_decode_N r3
            else None
        | _ => None
        end
      else None
  end.

Definition utf8_decode (body : bytes) : option pystr :=
  utf8_decode_N (map Byte.to_N body).

(* ===================================================================== *)
(** * JSON values *)
(* ===================================================================== *)

(** A [float] read from a JSON document: not-a-number, an infinity, or the
    double nearest to [(-1)^negative * digits * 10^exp10]. *)
Inductive pyfloat :=
| FNaN
| FInf (negative : bool)
| FDecimal (negative : bool) (digits : N) (exp10 : Z).

(** The Python objects [json.loads] builds. *)
#[warnings="-register-all"]
Inductive pyval :=
| PyNone
| PyBool (b : bool)
| PyInt (z : Z)
| PyFloat (f : pyfloat)
| PyStr (s : pystr)
| PyList (l : list pyval)
| PyDict (d : list (pystr * pyval)).

(** A decimal is the double zero when its digits are all zero or when it
    is at most half the least subnormal, 2^-1075, which rounds to even. *)
Definition float_is_zero (f : pyfloat) : bool :=
  match f with
  | FDecimal _ m e =>
      (m =? 0)%N || ((e <? 0)%Z && (Z.of_N m * 2 ^ 1075 <=? 10 ^ (- e))%Z)
  | _ => false
  end.

(** [bool(v)] *)
Definition truthy (v : pyval) : bool :=
  match v with
  | PyNone => false
  | PyBool b => b
  | PyInt z => negb (z =? 0)%Z
  | PyFloat f => negb (float_is_zero f)
  | PyStr s => match s with [] => false | _ => true end
  | PyList l => match l with [] => false | _ => true end
  | PyDict d => match d with [] => false | _ => true end
  end.

(** [dict(pairs)]: later pairs overwrite earlier ones. *)
Definition dict_of_pairs (pairs : list (pystr * pyval)) : dict pystr pyval :=
  fold_left (fun d '(k, v) => dict_set d k v) pairs [].

(* ===================================================================== *)
(** * The JSON decoder *)
(* ===================================================================== *)

(** [json.loads] as the standard decoder reads a document: a scanner that
    dispatches on the next character, with the object, array, string and
    number readers it calls.  Every reader returns the value read and the
    text that follows it; [None] stands for the [JSONDecodeError]. *)

Definition is_ws (c : N) : bool :=
  ((c =? 32) || (c =? 9) || (c =? 10) || (c =? 13))%N.

Fixpoint skip_ws (s : pystr) : pystr :=
  match s with
  | c :: r => if is_ws c then skip_ws r else s
  | [] => []
  end.

Definition is_digit (c : N) : bool := in_range 48 57 c.

Definition hex_digit (c : N) : option N :=
  if in_range 48 57 c then Some (c - 48)%N
  else if in_range 97 102 c then Some (c - 87)%N
  else if in_range 65 70 c then Some (c - 55)%N
  else None.

Definition hex4 (a b c d : N) : option N :=
  a' ← hex_digit a; b' ← hex_digit b; c' ← hex_digit c; d' ← hex_digit d;
  Some (a' * 4096 + b' * 256 + c' * 16 + d')%N.

(** The character a one-letter escape stands for. *)
Definition escape (c : N) : option N :=
  if (c =? 34)%N then Some 34%N          (* quotation mark *)
  else if (c =? 92)%N then Some 92%N     (* reverse solidus *)
  else if (c =? 47)%N then Some 47%N     (* solidus *)
  else if (c =? 98)%N then Some 8%N      (* backspace *)
  else if (c =? 102)%N then Some 12%N    (* form feed *)
  else if (c =? 110)%N then Some 10%N    (* line feed *)
  else if (c =? 114)%N then Some 13%N    (* carriage return *)
  else if (c =? 116)%N then Some 9%N     (* tab *)
  else None.

(** [scanstring], strict: the text after an opening quote up to the
    closing one.  [acc] holds the characters read so far, last first.  A
    high surrogate escape followed by a low surrogate escape is one
    character; control characters must be escaped. *)
Fixpoint scanstring (s : pystr) (acc : pystr) : option (pystr * pystr) :=
  match s with
  | [] => None
  | c :: r =>
      if (c =? 34)%N then Some (rev acc, r)
      else if (c =? 92)%N then
        match r with
        | [] => None
        | e :: r1 =>
            if (e =? 117)%N then
              match r1 with
              | h1 :: h2 :: h3 :: h4 :: r2 =>
                  match hex4 h1 h2 h3 h4 with
                  | None => None
                  | Some u =>
                      if in_range 55296 56319 u then
                        match r2 with
                        | b :: r3 =>
                            if (b =? 92)%N then
                              match r3 with
                              | u' :: r4 =>
                                  if (u' =? 117)%N then
                                    match r4 with
                                    | l1 :: l2 :: l3 :: l4 :: r5 =>
                                        match hex4 l1 l2 l3 l4 with
                                        | None => None
                                        | Some u2 =>
                                            if in_range 56320 57343 u2
                                            then scanstring r5
                                                   ((65536 + (u - 55296) * 1024
                                                     + (u2 - 56320))%N :: acc)
                                            else scanstring r2 (u :: acc)
                                        end
                                    | _ => None
                                    end
                                  else scanstring r2 (u :: acc)
                              | [] => scanstring r2 (u :: acc)
                              end
                            else scanstring r2 (u :: acc)
                        | [] => scanstring r2 (u :: acc)
                        end
                      else scanstring r2 (u :: acc)
                  end
              | _ => None
              end
            else
              match escape e with
              | Some x => scanstring r1 (x :: acc)
              | None => None
              end
        end
      else if (c <? 32)%N then None
      else scanstring r (c :: acc)
  end.

(** The longest prefix of decimal digits and what follows it. *)
Fixpoint take_digits (s : pystr) : pystr * pystr :=
  match s with
  | c :: r =>
      if is_digit c then let '(ds, rest) := take_digits r in (c :: ds, rest)
      else ([], s)
  | [] => ([], [])
  end.

Definition digits_value (ds : pystr) : N :=
  fold_left (fun a d => (10 * a + (d - 48))%N) ds 0%N.

(** [s.startswith(lit)]; the text after the literal. *)
Fixpoint strip_prefix (lit s : pystr) : option pystr :=
  match lit, s with
  | [], _ => Some s
  | a :: lit', b :: s' => if (a =? b)%N then strip_prefix lit' s' else None
  | _ :: _, [] => None
  end.

(** [sys.get_int_max_str_digits()] as the interpreter starts: [int]
    raises [ValueError] on a text of more digits. *)
Definition int_max_str_digits : nat := 4300.

(** [sys.getrecursionlimit()] as the interpreter starts. *)
Definition recursion_limit : nat := 1000.

(** The number pattern: an optional minus sign and either 0 or a non-zero
    digit followed by digits; then optionally a point and at least one
    digit; then optionally e or E, an optional sign and at least one
    digit.  The value is an integer when neither the fraction nor the
    exponent is present, a float otherwise.  The integer is made by
    [int], which refuses more than [int_max_str_digits] digits; the
    decoder then fails as a whole. *)
Definition match_number (s : pystr) : option (pyval * pystr) :=
  let '(neg, s1) :=
    match s with
    | c :: r => if (c =? 45)%N then (true, r) else (false, s)
    | [] => (false, s)
    end in
  match s1 with
  | [] => None
  | d :: r =>
      if negb (is_digit d) then None else
      let '(ids, rest) :=
        if (d =? 48)%N then ([d], r)
        else let '(ds, rest) := take_digits r in (d :: ds, rest) in
      let '(frac, rest) :=
        match rest with
        | p :: r' =>
            if (p =? 46)%N then
              match take_digits r' with
              | ([], _) => ([], rest)
              | (fs, rest') => (fs, rest')
              end
            else ([], rest)
        | [] => ([], rest)
        end in
      let '(exp, rest) :=
        match rest with
        | e :: r' =>
            if ((e =? 101) || (e =? 69))%N then
              let '(eneg, r'') :=
                match r' with
                | sg :: x =>
                    if (sg =? 45)%N then (true, x)
                    else if (sg =? 43)%N then (false, x)
                    else (false, r')
                | [] => (false, r')
                end in
              match take_digits r'' with
              | ([], _) => (None, rest)
              | (es, rest') =>
                  let v := Z.of_N (digits_value es) in
                  (Some (if eneg then (- v)%Z else v), rest')
              end
            else (None, rest)
        | [] => (None, rest)
        end in
      match frac, exp with
      | [], None =>
          if Nat.ltb int_max_str_digits (length ids) then None else
          let v := Z.of_N (digits_value ids) in
          Some (PyInt (if neg then (- v)%Z else v), rest)
      | _, _ =>
          Some (PyFloat (FDecimal neg (digits_value (ids ++ frac))
                           (default 0%Z exp - Z.of_nat (length frac))),
                rest)
      end
  end.

(** The branches of [scan_once] that read no nested value: the three
    literals, then a number, then the three non-finite constants. *)
Definition scan_constant (s : pystr) : option (pyval * pystr) :=
  match strip_prefix (pystr_of_string "null") s with
  | Some rest => Some (PyNone, rest)
  | None =>
  match strip_prefix (pystr_of_string "true") s with
  | Some rest => Some (PyBool true, rest)
  | None =>
  match strip_prefix (pystr_of_string "false") s with
  | Some rest => Some (PyBool false, rest)
  | None =>
  match match_number s with
  | Some res => Some res
  | None =>
  match strip_prefix (pystr_of_string "NaN") s with
  | Some rest => Some (PyFloat FNaN, rest)
  | None =>
  match strip_prefix (pystr_of_string "Infinity") s with
  | Some rest => Some (PyFloat (FInf false), rest)
  | None =>
  match strip_prefix (pystr_of_string "-Infinity") s with
  | Some rest => Some (PyFloat (FInf true), rest)
  | None => None
  end end end end end end end.

(** [scan_once] with the array and object loops it calls.  [fuel] bounds
    the calls of the model; a reader that runs out of it fails.  [depth]
    is what is left of the interpreter's recursion limit: the scanner
    enters one level at every opening brace or bracket, before it looks
    at what follows, and raises [RecursionError] when none is left. *)
Fixpoint scan_once (fuel depth : nat) (s : pystr) : option (pyval * pystr) :=
  match fuel with
  | O => None
  | S fuel' =>
      match s with
      | [] => None
      | c :: r =>
          if (c =? 34)%N then
            '(str, rest) ← scanstring r []; Some (PyStr str, rest)
          else if (c =? 123)%N then
            match depth with
            | O => None
            | S depth' =>
                match skip_ws r with
                | c1 :: r1 =>
                    if (c1 =? 125)%N then Some (PyDict [], r1)
                    else if (c1 =? 34)%N then JSONObject fuel' depth' r1 []
                    else None
                | [] => None
                end
            end
          else if (c =? 91)%N then
            match depth with
            | O => None
            | S depth' =>
                match skip_ws r with
                | c1 :: r1 =>
                    if (c1 =? 93)%N then Some (PyList [], r1)
                    else JSONArray fuel' depth' (c1 :: r1) []
                | [] => None
                end
            end
          else scan_constant s
      end
  end

(** The loop of [JSONArray]: [s] starts at a value, [acc] holds the values
    read so far, last first. *)
with JSONArray (fuel depth : nat) (s : pystr) (acc : list pyval)
  : option (pyval * pystr) :=
  match fuel with
  | O => None
  | S fuel' =>
      '(value, rest) ← scan_once fuel' depth s;
      match skip_ws rest with
      | c :: r =>
          if (c =? 93)%N then Some (PyList (rev (value :: acc)), r)
          else if (c =? 44)%N
          then JSONArray fuel' depth (skip_ws r) (value :: acc)
          else None
      | [] => None
      end
  end

(** The loop of [JSONObject]: [s] starts after the opening quote of a key,
    [acc] holds the pairs read so far, last first. *)
with JSONObject (fuel depth : nat) (s : pystr) (acc : list (pystr * pyval))
  : option (pyval * pystr) :=
  match fuel with
  | O => None
  | S fuel' =>
      '(key, rest) ← scanstring s [];
      match skip_ws rest with
      | c :: r =>
          if negb (c =? 58)%N then None else
          '(value, rest) ← scan_once fuel' depth (skip_ws r);
          match skip_ws rest with
          | c :: r =>
              if (c =? 125)%N
              then Some (PyDict (dict_of_pairs (rev ((key, value) :: acc))), r)
              else if (c =? 44)%N then
                match skip_ws r with
                | q :: r' =>
                    if (q =? 34)%N
                    then JSONObject fuel' depth r' ((key, value) :: acc)
                    else None
                | [] => None
                end
              else None
          | [] => None
          end
      | [] => None
      end
  end.

(** [json.loads(s)] for a [str], with the fuel of the scanner left open:
    a leading byte-order mark is refused, the document may be surrounded
    by whitespace and nothing else. *)
Definition json_loads_fuel (fuel depth : nat) (s : pystr) : option pyval :=
  match s with
  | 65279%N :: _ => None
  | _ =>
      '(obj, rest) ← scan_once fuel depth (skip_ws s);
      match skip_ws rest with
      | [] => Some obj
      | _ :: _ => None
      end
  end.

(** [json.loads(s)] when [depth] levels of recursion are left to the
    scanner; the fuel is taken from the length of the text. *)
Definition json_loads_within (depth : nat) (s : pystr) : option pyval :=
  json_loads_fuel (2 * length s + 2) depth s.

(** [json.loads(s)] with the whole recursion limit.  The frames of the
    caller take a few levels from it; the handler's theorems hold for
    every decoder, and for every depth left see [json_loads_within]. *)
Definition json_loads (s : pystr) : option pyval :=
  json_loads_within recursion_limit s.

(** [json.loads(body.decode("utf-8"))], [None] when either step raises. *)
Definition json_loads_utf8_within (depth : nat) (body : bytes) : option pyval :=
  utf8_decode body ≫= json_loads_within depth.

Definition json_loads_utf8 (body : bytes) : option pyval :=
  utf8_decode body ≫= json_loads.

(** Body literals. *)
Definition b (s : string) : bytes := list_byte_of_string s.

(* ===================================================================== *)
(** * Exceptions, requests, responses *)
(* ===================================================================== *)

(** The exceptions the handler meets.  [CancelledError] and
    [GeneratorExit] derive from [BaseException] only; the others derive
    from [Exception]. *)
Inductive exn :=
| StreamClosed                       (* httpx.StreamClosed *)
| TransportError (what : string)     (* httpx.ConnectError, ReadError, ReadTimeout, ... *)
| AttributeError (what : string)
| CancelledError
| GeneratorExit.

(** [isinstance(e, Exception)] *)
Definition is_Exception (e : exn) : bool :=
  match e with
  | CancelledError | GeneratorExit => false
  | _ => true
  end.

(** The module-level configuration, read from the environment at import. *)
Record Config := {
  UPSTREAM_BASE_URL : string;
  UPSTREAM_API_KEY : option string;
  PROXY_HOST : string;
  PROXY_PORT : Z
}.

(** What the handler reads of the inbound request: [await request.body()]
    and [dict(request.headers)]. *)
Record Request := {
  request_body : bytes;
  request_headers : headers
}.

(** The arguments of [client.stream(method, url, headers=..., content=...)]. *)
Record UpstreamRequest := {
  up_method : string;
  up_url : string;
  up_headers : headers;
  up_content : bytes
}.

(** [httpx.Headers]: the header fields of the response in wire order. *)
Definition httpx_Headers : Type := list (string * string).

(** [bytes.lower()], which folds A-Z only: the key [httpx] stores. *)
Definition ascii_lower_char (c : ascii) : ascii :=
  let n := N_of_ascii c in
  if in_range 65 90 n then ascii_of_N (n + 32) else c.

Fixpoint ascii_lower (s : string) : string :=
  match s with
  | EmptyString => EmptyString
  | String c s' => String (ascii_lower_char c) (ascii_lower s')
  end.

(** [Headers.items()]: one entry per lower-cased name, the values of a
    repeated name joined by a comma and a space. *)
Definition httpx_items (h : httpx_Headers) : headers :=
  fold_left
    (fun values_dict '(k, v) =>
       let str_key := ascii_lower k in
       match dict_get values_dict str_key with
       | Some old => dict_set values_dict str_key (old +:+ ", " +:+ v)
       | None => dict_set values_dict str_key v
       end)
    h [].

(** [", ".join(items)] *)
Fixpoint join_comma (items : list string) : string :=
  match items with
  | [] => ""
  | [x] => x
  | x :: rest => x +:+ ", " +:+ join_comma rest
  end.

(** [Headers.get(key, default)] *)
Definition httpx_get (h : httpx_Headers) (key default : string) : string :=
  let normalized_key := lower key in
  match omap (fun '(k, v) =>
                if decide (ascii_lower k = normalized_key) then Some v else None) h with
  | [] => default
  | items => join_comma items
  end.

(** An upstream response as the handler observes it: the status line and
    headers, then the chunks [r.aiter_bytes()] yields, then either the end
    of the stream ([None]) or an exception raised by the read. *)
Record UpstreamResponse := {
  status_code : Z;
  resp_headers : httpx_Headers;
  resp_chunks : list bytes;
  resp_end : option exn
}.

(** Entering [client.stream(...)]: the connection fails, or the response
    head arrives. *)
Inductive connect_result :=
| ConnectFails (e : exn)
| Connected (r : UpstreamResponse).

(** [Response(content=..., status_code=..., headers=..., media_type=...)] *)
Record Response := {
  content : bytes;
  response_status_code : Z;
  response_headers : headers;
  media_type : option string
}.

(** What the handler prints. *)
Inductive debug_msg :=
| DebugBody (body : bytes)
| DebugUrl (url : string)
| DebugHeaders (h : headers)
| DebugStreamClosed
| DebugStreamError (e : exn).

(** The observable actions of the handler, in order. *)
Inductive event :=
| EvPrint (msg : debug_msg)
| EvOpen (req : UpstreamRequest)   (* client.stream(...) entered: the request is sent *)
| EvRead                           (* the next chunk is requested from upstream *)
| EvClose.                         (* the upstream response is closed, its connection released *)

(* ===================================================================== *)
(** * Effects *)
(* ===================================================================== *)

(** A computation logs events and either raises or returns. *)
Definition io (A : Type) : Type := list event * (exn + A).

Definition io_ret {A} (a : A) : io A := ([], inr a).

Definition io_bind {A B} (m : io A) (f : A -> io B) : io B :=
  match m with
  | (l, inl e) => (l, inl e)
  | (l, inr a) => let '(l', r) := f a in (l ++ l', r)
  end.

Definition emit (ev : event) : io unit := ([ev], inr tt).

Definition raise {A} (e : exn) : io A := ([], inl e).

(** Leaving an [async with] block: the response is closed on every path. *)
Definition closing {A} (m : io A) : io A :=
  let '(l, r) := m in (l ++ [EvClose], r).

Declare Scope io_scope.
Delimit Scope io_scope with io.
Notation "x <- m ;; k" := (io_bind m (fun x => k))
  (at level 20, m at level 99, k at level 200, only parsing) : io_scope.
Notation "m ;;; k" := (io_bind m (fun _ => k))
  (at level 20, k at level 200, only parsing) : io_scope.

(* ===================================================================== *)
(** * The request handler *)
(* ===================================================================== *)

(** States of [event_generator()], one per suspension point. *)
Inductive gen_state :=
| GenCreated (req : UpstreamRequest)     (* not started *)
| GenConnecting (req : UpstreamRequest)  (* awaiting the entry of client.stream(...) *)
| GenReading (rest : list bytes) (fin : option exn)
                                         (* awaiting the next item of r.aiter_bytes() *)
| GenYielded (rest : list bytes) (fin : option exn)
                                         (* suspended at yield *)
| GenClosed.                             (* finished *)

(** [StreamingResponse(event_generator(), status_code=..., media_type=...)] *)
Record StreamingResponse := {
  body_iterator : gen_state;
  streaming_status_code : Z;
  streaming_media_type : string
}.

(** What drives the generator: its consumer asks for the next item, an
    awaited upstream operation completes, or the consumer goes away and
    the generator is cancelled where it is suspended. *)
Inductive action := Next | Arrive | Cancel.

(** What the generator hands to its consumer. *)
Inductive output :=
| Yield (chunk : bytes)
| StopAsyncIteration
| Propagate (e : exn).

(** The field the classifier looks up. *)
Definition stream_key : pystr := pystr_of_string "stream".

Section Handler.
(** [json.loads(body.decode("utf-8"))], [None] when it raises. *)
Variable loads : bytes -> option pyval.
(** The upstream service. *)
Variable upstream : UpstreamRequest -> connect_result.
Variable cfg : Config.

Local Open Scope io_scope.

(** [payload.get("stream")]: only a [dict] has the method. *)
Definition payload_get (payload : pyval) (key : pystr) : io pyval :=
  match payload with
  | PyDict d => io_ret (default PyNone (dict_get d key))
  | _ => raise (AttributeError "get")
  end.

(** Lines 89-94: the streaming classifier. *)
Definition classify (body : bytes) : io bool :=
  let payload :=
    match loads body with
    | Some v => v
    | None => PyDict []
    end in
  v <- payload_get payload (pystr_of_string "stream") ;;
  io_ret (truthy v).

Definition upstream_url : string :=
  rstrip_slash (UPSTREAM_BASE_URL cfg) +:+ "/chat/completions".

Definition upstream_request (request : Request) : UpstreamRequest :=
  {| up_method := "POST";
     up_url := upstream_url;
     up_headers := _filtered_headers_for_upstream (request_headers request);
     up_content := request_body request |}.

(** The lines printed before the request is forwarded. *)
Definition debug_prints (request : Request) : list event :=
  [EvPrint (DebugBody (request_body request));
   EvPrint (DebugUrl upstream_url);
   EvPrint (DebugHeaders (_filtered_headers_for_upstream (request_headers request)))].

(** [await r.aread()]: every chunk is requested in turn and the chunks
    are joined; an exception raised by a read loses what was read. *)
Fixpoint aread (chunks : list bytes) (fin : option exn) : io bytes :=
  match chunks with
  | [] =>
      emit EvRead ;;;
      match fin with
      | None => io_ret []
      | Some e => raise e
      end
  | c :: rest =>
      emit EvRead ;;;
      tail <- aread rest fin ;;
      io_ret (c ++ tail)
  end.

(** [async with client.stream(...) as r: body] *)
Definition with_stream {A} (req : UpstreamRequest)
    (body : UpstreamResponse -> io A) : io A :=
  emit (EvOpen req) ;;;
  match upstream req with
  | ConnectFails e => raise e
  | Connected r => closing (body r)
  end.

(** [proxy_chat_completions(request)] up to the point where it returns
    or raises.  The streaming response holds the generator unstarted. *)
Definition proxy_chat_completions (request : Request)
  : io (Response + StreamingResponse) :=
  let body := request_body request in
  emit (EvPrint (DebugBody body)) ;;;
  is_stream <- classify body ;;
  let req := upstream_request request in
  emit (EvPrint (DebugUrl (up_url req))) ;;;
  emit (EvPrint (DebugHeaders (up_headers req))) ;;;
  if is_stream : bool then
    io_ret (inr {| body_iterator := GenCreated req;
                   streaming_status_code := 200;
                   streaming_media_type := "text/event-stream" |})
  else
    with_stream req (fun r =>
      let content_type := httpx_get (resp_headers r) "content-type" "" in
      let client_headers :=
        _filtered_headers_for_client (httpx_items (resp_headers r)) in
      resp_body <- aread (resp_chunks r) (resp_end r) ;;
      io_ret (inl {| content := resp_body;
                     response_status_code := status_code r;
                     response_headers := client_headers;
                     media_type :=
                       if decide (content_type = "") then None
                       else Some content_type |})).

(** The [except] clauses of [event_generator]: an [Exception] is
    printed and the generator returns; anything else leaves it. *)
Definition gen_except (e : exn) : list event * output :=
  match e with
  | StreamClosed => ([EvPrint DebugStreamClosed], StopAsyncIteration)
  | _ =>
      if is_Exception e
      then ([EvPrint (DebugStreamError e)], StopAsyncIteration)
      else ([], Propagate e)
  end.

(** [event_generator()], one move at a time: the next state, the events
    of the move and what the consumer receives, if anything.  [None] when the
    action cannot occur in the state.
    - [Next] on a new generator runs it to the entry of
      [client.stream(...)], which sends the request (lines 105-111).
    - [Arrive] while connecting: the entry fails and the exception meets
      the [except] clauses (lines 117-122), or the response head is there
      and the loop asks [r.aiter_bytes()] for its first item (line 113).
    - [Arrive] while reading: a non-empty chunk is yielded (lines
      114-116), an empty one is skipped and the next is asked for; at the
      end of the stream the [async with] block is left, which closes the
      response, and the generator returns; a failed read leaves the
      block in the same way and meets the [except] clauses.
    - [Next] at the yield resumes the loop, which asks for the next item.
    - [Cancel] raises [CancelledError] at an await or [GeneratorExit] at
      the yield; neither is an [Exception], so it passes the [except]
      clauses.  Inside the [async with] block (lines 113-116) the exit of
      the block closes the response first.  While the entry of
      [client.stream(...)] is still awaited the block has not been
      entered, so its exit does not run and the generator closes
      nothing: what becomes of the request in flight is left to the
      client library. *)
Definition event_generator (a : action) (s : gen_state)
  : option (gen_state * list event * option output) :=
  match a, s with
  | Next, GenCreated req =>
      Some (GenConnecting req, [EvOpen req], None)
  | Arrive, GenConnecting req =>
      match upstream req with
      | ConnectFails e =>
          let '(evs, out) := gen_except e in
          Some (GenClosed, evs, Some out)
      | Connected r =>
          Some (GenReading (resp_chunks r) (resp_end r), [EvRead], None)
      end
  | Arrive, GenReading (chunk :: rest) fin =>
      if bytes_truthy chunk
      then Some (GenYielded rest fin, [], Some (Yield chunk))
      else Some (GenReading rest fin, [EvRead], None)
  | Arrive, GenReading [] None =>
      Some (GenClosed, [EvClose], Some StopAsyncIteration)
  | Arrive, GenReading [] (Some e) =>
      let '(evs, out) := gen_except e in
      Some (GenClosed, EvClose :: evs, Some out)
  | Next, GenYielded rest fin =>
      Some (GenReading rest fin, [EvRead], None)
  | Cancel, GenCreated _ =>
      Some (GenClosed, [], None)
  | Cancel, GenConnecting _ =>
      Some (GenClosed, [], Some (Propagate CancelledError))
  | Cancel, GenReading _ _ =>
      Some (GenClosed, [EvClose], Some (Propagate CancelledError))
  | Cancel, GenYielded _ _ =>
      Some (GenClosed, [EvClose], Some (Propagate GeneratorExit))
  | _, _ => None
  end.

(** A run of the generator under a schedule of actions: the final
    state, the events and the outputs, in order. *)
Fixpoint gen_run (acts : list action) (s : gen_state)
  : option (gen_state * list event * list output) :=
  match acts with
  | [] => Some (s, [], [])
  | a :: acts' =>
      '(s1, evs1, out1) ← event_generator a s;
      '(s2, evs2, outs2) ← gen_run acts' s1;
      Some (s2, evs1 ++ evs2, option_list out1 ++ outs2)
  end.

(** The schedule of a consumer that stays to the end of a stream of the
    given chunks: it starts the generator and asks again after every
    chunk it receives. *)
Definition patient (chunks : list bytes) : list action :=
  [Next; Arrive]
    ++ flat_map (fun c => if bytes_truthy c then [Arrive; Next] else [Arrive]) chunks
    ++ [Arrive].
End Handler.

(** The chunks handed to the client. *)
Definition yielded (outs : list output) : list bytes :=
  omap (fun o => match o with Yield c => Some c | _ => None end) outs.

(** How many chunks were requested from upstream. *)
Fixpoint reads (evs : list event) : nat :=
  match evs with
  | [] => 0
  | EvRead :: evs' => S (reads evs')
  | _ :: evs' => reads evs'
  end.

(** The requests sent upstream. *)
Definition opened (evs : list event) : list UpstreamRequest :=
  omap (fun ev => match ev with EvOpen req => Some req | _ => None end) evs.

(** The status the client sees: an exception that leaves the handler is
    answered by the framework with status 500. *)
Definition client_status (res : exn + (Response + StreamingResponse)) : Z :=
  match res with
  | inl _ => 500
  | inr (inl r) => response_status_code r
  | inr (inr r) => streaming_status_code r
  end.

(* ===================================================================== *)
(** * Notions used by the statements *)
(* ===================================================================== *)

(** The generator has been started. *)
Definition started (s : gen_state) : Prop :=
  match s with GenCreated _ => False | _ => True end.

(** Whether a read is awaited in the state. *)
Definition pending (s : gen_state) : nat :=
  match s with GenReading _ _ => 1 | _ => 0 end.

(** The state holds an open response with the chunks [rest] to come. *)
Definition relaying (s : gen_state) (rest : list bytes) (fin : option exn) : Prop :=
  s = GenReading rest fin \/ s = GenYielded rest fin.

(** Whether the generator is inside its [async with] block, where it
    holds the upstream response. *)
Definition response_open (s : gen_state) : bool :=
  match s with
  | GenReading _ _ | GenYielded _ _ => true
  | _ => false
  end.

Section Failures.
Variable upstream : UpstreamRequest -> connect_result.

(** What the upstream may raise is an [Exception]. *)
Definition fin_ok (fin : option exn) : Prop :=
  match fin with Some e => is_Exception e = true | None => True end.

Definition upstream_ok (req : UpstreamRequest) : Prop :=
  match upstream req with
  | ConnectFails e => is_Exception e = true
  | Connected r => fin_ok (resp_end r)
  end.

Definition safe (s : gen_state) : Prop :=
  match s with
  | GenCreated req | GenConnecting req => upstream_ok req
  | GenReading _ fin | GenYielded _ fin => fin_ok fin
  | GenClosed => True
  end.

End Failures.


(** [needle in hay] for two strings. *)
Fixpoint occurs_in (needle hay : string) : bool :=
  String.prefix needle hay
  || match hay with
     | EmptyString => false
     | String _ hay' => occurs_in needle hay'
     end.

(** A header name or value contains the text. *)
Definition mentions (key : string) (h : headers) : Prop :=
  exists k v, (k, v) ∈ h /\ (occurs_in key k = true \/ occurs_in key v = true).

(** Two configurations that differ at most in the API key. *)
Definition same_but_key (cfg1 cfg2 : Config) : Prop :=
  UPSTREAM_BASE_URL cfg1 = UPSTREAM_BASE_URL cfg2
  /\ PROXY_HOST cfg1 = PROXY_HOST cfg2
  /\ PROXY_PORT cfg1 = PROXY_PORT cfg2.

(** The cases of one move, with the pair of [gen_except] named. *)
Ltac step_cases H :=
  unfold event_generator in H;
  repeat case_match; simplify_eq;
  repeat match goal with
    | E : gen_except ?e = (_, _) |- _ =>
        let E1 := fresh in let E2 := fresh in
        pose proof (f_equal fst E) as E1; pose proof (f_equal snd E) as E2;
        cbn [fst snd] in E1, E2; clear E; subst
    end.

(* ===================================================================== *)
(** * Sample requests and upstreams *)
(* ===================================================================== *)

(** The quotation mark and the line feed, for body literals. *)
Definition dq : string := String (ascii_of_nat 34) EmptyString.
Definition nl : string := String (ascii_of_nat 10) EmptyString.
Definition quoted (s : string) : string := dq +:+ s +:+ dq.

(** The configuration of an empty environment. *)
Definition default_config : Config :=
  {| UPSTREAM_BASE_URL := "https://any.host.exposing.chat.completion.api/v1";
     UPSTREAM_API_KEY := None;
     PROXY_HOST := "0.0.0.0";
     PROXY_PORT := 8000 |}.

Definition keyed_config : Config :=
  {| UPSTREAM_BASE_URL := "https://any.host.exposing.chat.completion.api/v1";
     UPSTREAM_API_KEY := Some "sk-upstream-secret";
     PROXY_HOST := "0.0.0.0";
     PROXY_PORT := 8000 |}.

Definition sample_headers : headers :=
  [("host", "proxy.local:8000"); ("content-type", "application/json");
   ("content-length", "15"); ("authorization", "Bearer client-token");
   ("accept-encoding", "gzip")].

(** The body with the stream flag set. *)
Definition request_stream : Request :=
  {| request_body := b ("{" +:+ quoted "stream" +:+ ":true}");
     request_headers := sample_headers |}.

(** A complete chat request with the stream flag cleared. *)
Definition request_plain : Request :=
  {| request_body :=
       b ("{" +:+ quoted "model" +:+ ":" +:+ quoted "x" +:+ ","
          +:+ quoted "messages" +:+ ":[]," +:+ quoted "stream" +:+ ":false}");
     request_headers := sample_headers |}.

Definition request_not_json : Request :=
  {| request_body := b "not-json"; request_headers := sample_headers |}.

Definition request_array : Request :=
  {| request_body := b "[]"; request_headers := sample_headers |}.

(** An upstream that answers with one JSON document. *)
Definition json_answer : UpstreamResponse :=
  {| status_code := 200;
     resp_headers := [("Content-Type", "application/json");
                      ("Connection", "keep-alive");
                      ("Content-Encoding", "gzip")];
     resp_chunks := [b ("{" +:+ quoted "id" +:+ ":" +:+ quoted "1" +:+ "}")];
     resp_end := None |}.

Definition upstream_json (_ : UpstreamRequest) : connect_result :=
  Connected json_answer.

(** An upstream that streams the given chunks and closes. *)
Definition upstream_chunks (chunks : list bytes) (_ : UpstreamRequest)
  : connect_result :=
  Connected {| status_code := 200;
               resp_headers := [("content-type", "text/event-stream")];
               resp_chunks := chunks;
               resp_end := None |}.

(** An upstream whose stream breaks after the given chunks. *)
Definition upstream_broken (chunks : list bytes) (_ : UpstreamRequest)
  : connect_result :=
  Connected {| status_code := 200;
               resp_headers := [("content-type", "text/event-stream")];
               resp_chunks := chunks;
               resp_end := Some (TransportError "ReadError") |}.

(** An upstream that cannot be reached. *)
Definition upstream_down (_ : UpstreamRequest) : connect_result :=
  ConnectFails (TransportError "ConnectError").

Definition chunk_a : bytes := b ("data: a" +:+ nl +:+ nl).
Definition chunk_b : bytes := b ("data: b" +:+ nl +:+ nl).
Definition chunk_c : bytes := b ("data: c" +:+ nl +:+ nl).

(* ===================================================================== *)
(** * Further notions: the URL, the connection, the two modes *)
(* ===================================================================== *)

(** [n] slashes. *)
Fixpoint slashes (n : nat) : string :=
  match n with
  | O => EmptyString
  | S n' => String "/" (slashes n')
  end.

(** [s.endswith('/')] *)
Fixpoint ends_with_slash (s : string) : bool :=
  match s with
  | EmptyString => false
  | String c EmptyString => Ascii.eqb c "/"
  | String _ s' => ends_with_slash s'
  end.

(** The configuration with another base URL. *)
Definition with_base_url (cfg : Config) (url : string) : Config :=
  {| UPSTREAM_BASE_URL := url;
     UPSTREAM_API_KEY := UPSTREAM_API_KEY cfg;
     PROXY_HOST := PROXY_HOST cfg;
     PROXY_PORT := PROXY_PORT cfg |}.

(** The names only the to-upstream filter removes. *)
Definition upstream_only : list string :=
  ["host"; "content-length"; "accept-encoding"].

(** What every request to the upstream looks like: a POST to the
    normalized URL whose headers are inbound headers with a name outside
    the to-upstream exclusion set. *)
Definition outbound_shape (cfg : Config) (request : Request)
    (req : UpstreamRequest) : Prop :=
  up_method req = "POST"
  /\ up_url req = rstrip_slash (UPSTREAM_BASE_URL cfg) +:+ "/chat/completions"
  /\ up_content req = request_body request
  /\ forall k v, (k, v) ∈ up_headers req ->
       (k, v) ∈ request_headers request /\ lower k ∉ hop_by_hop_upstream.

(** The upstream connection as the events of a run show it: not yet
    requested, requested (and open once the response head is there), or
    released. *)
Inductive conn_state := ConnIdle | ConnOpen | ConnReleased.

(** The discipline of a scoped connection: a request is sent once, chunks
    are read only between the request and the release, the release
    happens once.  [None] when the events break it. *)
Fixpoint protocol (c : conn_state) (evs : list event) : option conn_state :=
  match evs with
  | [] => Some c
  | EvPrint _ :: evs' => protocol c evs'
  | EvOpen _ :: evs' =>
      match c with ConnIdle => protocol ConnOpen evs' | _ => None end
  | EvRead :: evs' =>
      match c with ConnOpen => protocol ConnOpen evs' | _ => None end
  | EvClose :: evs' =>
      match c with ConnOpen => protocol ConnReleased evs' | _ => None end
  end.

(** The connection state that goes with a state of the generator created
    for the request [req0], after [n] chunks were requested.  Inside the
    [async with] block the response is open and its first chunk has been
    requested.  A finished generator has released the response if it
    ever held one; it never held one when it was not started, or when
    the entry of [client.stream(...)] failed or was cancelled. *)
Definition conn_agrees (upstream : UpstreamRequest -> connect_result)
    (req0 : UpstreamRequest) (s : gen_state) (c : conn_state) (n : nat) : Prop :=
  match s, c with
  | GenCreated r, ConnIdle => r = req0 /\ n = 0
  | GenConnecting r, ConnOpen => r = req0 /\ n = 0
  | GenReading _ _, ConnOpen | GenYielded _ _, ConnOpen =>
      0 < n /\ exists r, upstream req0 = Connected r
  | GenClosed, ConnIdle => n = 0
  | GenClosed, ConnOpen => n = 0
  | GenClosed, ConnReleased => 0 < n /\ exists r, upstream req0 = Connected r
  | _, _ => False
  end.

(** The lines printed, in order. *)
Definition printed (evs : list event) : list debug_msg :=
  omap (fun ev => match ev with EvPrint m => Some m | _ => None end) evs.

(** The line an [except] clause of the generator prints. *)
Definition except_msg (e : exn) : debug_msg :=
  match e with
  | StreamClosed => DebugStreamClosed
  | _ => DebugStreamError e
  end.

(** The exception that lies ahead of a generator, if any: the failure of
    the connection, or the one that ends the stream. *)
Definition failure_of (upstream : UpstreamRequest -> connect_result)
    (s : gen_state) : option exn :=
  match s with
  | GenCreated req | GenConnecting req =>
      match upstream req with
      | ConnectFails e => Some e
      | Connected r => resp_end r
      end
  | GenReading _ fin | GenYielded _ fin => fin
  | GenClosed => None
  end.

(** Two answers of the upstream that differ at most in the status and
    the headers of the response. *)
Definition same_body (c c' : connect_result) : Prop :=
  match c, c' with
  | ConnectFails e, ConnectFails e' => e = e'
  | Connected r, Connected r' =>
      resp_chunks r = resp_chunks r' /\ resp_end r = resp_end r'
  | _, _ => False
  end.

(** The moves of a generator whose consumer stays to the end: when the
    connection fails it is started and told so; otherwise the consumer is
    [patient]. *)
Definition schedule (upstream : UpstreamRequest -> connect_result)
    (req : UpstreamRequest) : list action :=
  match upstream req with
  | ConnectFails _ => [Next; Arrive]
  | Connected r => patient (resp_chunks r)
  end.

(* ===================================================================== *)
(** * Dictionary lemmas *)
(* ===================================================================== *)

Section DictFacts.
Context {K V : Type} `{EqDecision K}.
Implicit Types (d : dict K V) (k : K) (v : V).

Lemma dict_set_fresh d k v :
  k ∉ d.*1 -> dict_set d k v = d ++ [(k, v)].
Proof.
  induction d as [|[k' v'] d IH]; intros Hk; [done|].
  rewrite fmap_cons in Hk. apply not_elem_of_cons in Hk as [Hne Hk].
  cbn in *. destruct (decide (k' = k)) as [->|_]; [done|].
  by rewrite IH.
Qed.

Lemma dict_get_Some d k v :
  dict_wf d -> dict_get d k = Some v <-> (k, v) ∈ d.
Proof.
  unfold dict_wf.
  induction d as [|[k' v'] d IH]; intros Hnd.
  - split; [done|]. by intros ?%elem_of_nil.
  - rewrite fmap_cons in Hnd. apply NoDup_cons in Hnd as [Hk' Hnd].
    cbn in *. destruct (decide (k' = k)) as [->|Hne].
    + split.
      * intros [= ->]. left.
      * intros [[= ->]|Hin]%elem_of_cons; [done|].
        exfalso. apply Hk'. change k with ((k, v).1).
        by apply list_elem_of_fmap_2.
    + rewrite IH by done. split.
      * by right.
      * by intros [[= <- <-]|Hin]%elem_of_cons.
Qed.



Lemma dict_wf_filter (P : K * V -> Prop) `{!forall x, Decision (P x)} d :
  dict_wf d -> dict_wf (filter P d).
Proof.
  unfold dict_wf. intros Hnd.
  apply (sublist_NoDup _ _ Hnd), fmap_sublist, sublist_filter.
Qed.
End DictFacts.

(* ===================================================================== *)
(** * The header filter *)
(* ===================================================================== *)

Lemma header_filter_unfold dir h :
  header_filter dir h = fold_left (filter_step (exclusion_set dir)) h [].
Proof. by destruct dir. Qed.

Lemma filter_loop excl (items acc : headers) :
  NoDup (acc.*1 ++ items.*1) ->
  fold_left (filter_step excl) items acc = acc ++ filter (retained excl) items.
Proof.
  revert acc. induction items as [|[k v] items IH]; intros acc Hnd.
  - cbn. by rewrite app_nil_r.
  - rewrite fmap_cons in Hnd. cbn [fold_left filter_step].
    rewrite filter_cons. unfold retained at 1. cbn [fst].
    apply NoDup_app in Hnd as (Hacc & Hdisj & Hitems).
    apply NoDup_cons in Hitems as [Hk Hitems].
    case_bool_decide as Hin.
    + rewrite decide_False by (by intros ?).
      apply IH. apply NoDup_app. split_and!; [done| |done].
      intros x Hx. specialize (Hdisj x Hx). by apply not_elem_of_cons in Hdisj as [_ ?].
    + rewrite decide_True by done.
      rewrite dict_set_fresh.
      2:{ intros Hk'. apply (Hdisj k Hk'). left. }
      rewrite IH; [by rewrite <- app_assoc|].
      rewrite fmap_app. cbn. rewrite <- app_assoc. cbn.
      apply NoDup_app. split_and!; [done| |by apply NoDup_cons].
      intros x Hx. by apply Hdisj.
Qed.

(** The filter as one list filter, in the order of the input. *)
Lemma header_filter_is_filter dir (h : headers) :
  dict_wf h -> header_filter dir h = filter (retained (exclusion_set dir)) h.
Proof.
  intros Hwf. rewrite header_filter_unfold. by rewrite filter_loop.
Qed.

(** C1. For a header mapping (a dictionary, whose keys are pairwise
    distinct) and either direction, the header filter returns a mapping
    that holds exactly the entries whose lower-cased key is outside the
    exclusion set of the direction, each with its key and value as they
    were and in their original order; the exclusion sets are the eleven
    names of the to-upstream direction and the nine of the to-client
    direction. *)
Theorem header_filter_exact (dir : direction) (h : headers) :
  dict_wf h ->
  header_filter dir h = filter (retained (exclusion_set dir)) h
  /\ dict_wf (header_filter dir h)
  /\ (forall k v,
        dict_get (header_filter dir h) k = Some v
        <-> dict_get h k = Some v /\ lower k ∉ exclusion_set dir)
  /\ (forall s, s ∈ exclusion_set ToUpstream
        <-> s ∈ ["host"; "content-length"; "connection"; "keep-alive";
                 "proxy-authenticate"; "proxy-authorization"; "te";
                 "trailers"; "transfer-encoding"; "upgrade";
                 "accept-encoding"])
  /\ (forall s, s ∈ exclusion_set ToClient
        <-> s ∈ ["connection"; "keep-alive"; "proxy-authenticate";
                 "proxy-authorization"; "te"; "trailers";
                 "transfer-encoding"; "upgrade"; "content-encoding"]).
Proof.
  intros Hwf. pose proof (header_filter_is_filter dir h Hwf) as Heq.
  assert (Hwf' : dict_wf (header_filter dir h)).
  { rewrite Heq. by apply dict_wf_filter. }
  split_and!; [done|done| | |].
  - intros k v. rewrite dict_get_Some by done. rewrite Heq.
    rewrite list_elem_of_filter. unfold retained. cbn [fst].
    rewrite dict_get_Some by done. tauto.
  - intros s. cbn [exclusion_set]. unfold hop_by_hop_upstream.
    rewrite !elem_of_union, !elem_of_singleton, !elem_of_cons, elem_of_nil.
    tauto.
  - intros s. cbn [exclusion_set]. unfold hop_by_hop_client.
    rewrite !elem_of_union, !elem_of_singleton, !elem_of_cons, elem_of_nil.
    tauto.
Qed.

Lemma header_filter_exact_witness :
  let h := [("Host", "proxy.local"); ("Authorization", "Bearer t");
            ("ACCEPT-ENCODING", "gzip"); ("X-Trace", "1")] in
  dict_wf h
  /\ header_filter ToUpstream h = [("Authorization", "Bearer t"); ("X-Trace", "1")].
Proof.
  intros h.
  assert (Hwf : dict_wf h).
  { unfold dict_wf. apply (bool_decide_unpack _). vm_compute. exact I. }
  split; [exact Hwf|].
  rewrite (proj1 (header_filter_exact ToUpstream h Hwf)).
  vm_compute. reflexivity.
Defined.

(* ===================================================================== *)
(** * The decoder and its fuel *)
(* ===================================================================== *)

Lemma skip_ws_length s : length (skip_ws s) <= length s.
Proof.
  induction s as [|c s IH]; [done|].
  cbn. destruct (is_ws c); cbn; lia.
Qed.

Lemma take_digits_length s ds rest :
  take_digits s = (ds, rest) -> length s = length ds + length rest.
Proof.
  revert ds rest. induction s as [|c s IH]; intros ds rest H.
  - by simplify_eq/=.
  - cbn in H. destruct (is_digit c); [|by simplify_eq/=].
    destruct (take_digits s) as [ds' rest'] eqn:E. simplify_eq/=.
    by rewrite (IH _ _ eq_refl).
Qed.

Lemma strip_prefix_length lit : forall s rest,
  strip_prefix lit s = Some rest -> length s = length lit + length rest.
Proof.
  induction lit as [|a lit IH]; intros s rest H.
  - by simplify_eq/=.
  - destruct s as [|c s]; [done|]. cbn in H.
    destruct (a =? c)%N; [|done]. cbn. by rewrite (IH _ _ H).
Qed.

(** A string token ends at its closing quote, which it consumes. *)
Lemma scanstring_length n : forall s acc str rest,
  length s <= n -> scanstring s acc = Some (str, rest) ->
  length rest < length s.
Proof.
  induction n as [|n IH]; intros s acc str rest Hn H.
  - destruct s; [done|cbn in Hn; lia].
  - destruct s as [|c r]; [done|]. cbn [scanstring] in H.
    repeat case_match; simplify_eq; cbn [length] in *; try lia;
      (eapply IH in H; [|cbn [length] in *; lia]); cbn [length] in *; lia.
Qed.

Lemma match_number_length s v rest :
  match_number s = Some (v, rest) -> length rest < length s.
Proof.
  unfold match_number. intros H.
  repeat case_match; simplify_eq;
    repeat match goal with
      | E : take_digits _ = _ |- _ => apply take_digits_length in E
      end;
    cbn [length] in *; lia.
Qed.

Lemma scan_constant_length s v rest :
  scan_constant s = Some (v, rest) -> length rest < length s.
Proof.
  unfold scan_constant. intros H.
  repeat case_match; simplify_eq;
    try (by eapply match_number_length);
    match goal with
    | E : strip_prefix _ _ = Some _ |- _ =>
        apply strip_prefix_length in E;
        vm_compute (length (pystr_of_string _)) in E; lia
    end.
Qed.

(** Facts on the lengths of what the readers leave. *)
Ltac len_facts :=
  repeat match goal with
    | E : skip_ws ?r = _ |- _ =>
        let H := fresh "Hws" in
        pose proof (skip_ws_length r) as H; rewrite E in H; clear E
    | E : scanstring ?s _ = Some _ |- _ =>
        apply (scanstring_length (length s) _ _ _ _ (le_n _)) in E
    | E : scan_constant _ = Some _ |- _ => apply scan_constant_length in E
    end.

Ltac bind_cases H :=
  repeat (first
    [ case_match
    | match type of H with
      | context [mbind _ ?x] => destruct x as [[??]|] eqn:?
      end ];
    simplify_eq/=).

(** Every reader consumes at least one character. *)
Lemma scan_length f :
  (forall d s v rest, scan_once f d s = Some (v, rest) -> length rest < length s)
  /\ (forall d s acc v rest,
        JSONArray f d s acc = Some (v, rest) -> length rest < length s)
  /\ (forall d s acc v rest,
        JSONObject f d s acc = Some (v, rest) -> length rest < length s).
Proof.
  induction f as [|f (IHs & IHa & IHo)]; [done|].
  split_and!.
  - intros d s v rest H. destruct s as [|c r]; [done|].
    cbn [scan_once] in H. bind_cases H; len_facts;
      repeat match goal with
        | E : JSONObject f _ _ _ = Some _ |- _ => apply IHo in E
        | E : JSONArray f _ _ _ = Some _ |- _ => apply IHa in E
        end;
      cbn [length] in *; lia.
  - intros d s acc v rest H. cbn [JSONArray] in H.
    bind_cases H; len_facts;
      repeat match goal with
        | E : scan_once f _ _ = Some _ |- _ => apply IHs in E
        | E : JSONArray f _ (skip_ws ?x) _ = Some _ |- _ =>
            apply IHa in E; pose proof (skip_ws_length x)
        end;
      cbn [length] in *; lia.
  - intros d s acc v rest H. cbn [JSONObject] in H.
    bind_cases H; len_facts;
      repeat match goal with
        | E : scan_once f _ (skip_ws ?x) = Some _ |- _ =>
            apply IHs in E; pose proof (skip_ws_length x)
        | E : JSONObject f _ _ _ = Some _ |- _ => apply IHo in E
        end;
      cbn [length] in *; lia.
Qed.

(** Beyond twice the length of the text, more fuel changes nothing. *)
Lemma scan_stable f :
  (forall d s, 2 * length s + 1 <= f -> scan_once (S f) d s = scan_once f d s)
  /\ (forall d s acc, 2 * length s + 2 <= f ->
        JSONArray (S f) d s acc = JSONArray f d s acc)
  /\ (forall d s acc, 2 * length s + 2 <= f ->
        JSONObject (S f) d s acc = JSONObject f d s acc).
Proof.
  induction f as [|f (IHs & IHa & IHo)]; [split_and!; intros; lia|].
  split_and!.
  - intros d s Hf. destruct s as [|c r]; [done|].
    cbn [scan_once length] in *.
    repeat case_match; try done; len_facts; cbn [length] in *.
    + apply IHo. lia.
    + apply IHa. cbn [length]. lia.
  - intros d s acc Hf. cbn [JSONArray].
    rewrite IHs by lia.
    destruct (scan_once f d s) as [[value rest]|] eqn:E; [|done].
    apply (proj1 (scan_length f)) in E. cbn [mbind option_bind].
    repeat case_match; try done; len_facts; cbn [length] in *.
    match goal with
    | |- context [JSONArray f d (skip_ws ?x)] => pose proof (skip_ws_length x)
    end.
    apply IHa. lia.
  - intros d s acc Hf. cbn [JSONObject].
    destruct (scanstring s []) as [[key rest]|] eqn:E; [|done].
    cbn [mbind option_bind]. len_facts.
    repeat case_match; try done; len_facts; cbn [length] in *.
    match goal with
    | |- context [scan_once f d (skip_ws ?x)] =>
        pose proof (skip_ws_length x); rewrite (IHs d (skip_ws x)) by lia;
        destruct (scan_once f d (skip_ws x)) as [[value rest']|] eqn:E'; [|done]
    end.
    apply (proj1 (scan_length f)) in E'. cbn [mbind option_bind].
    repeat case_match; try done; len_facts; cbn [length] in *.
    apply IHo. lia.
Qed.

(** The decoder's fuel is enough: any larger amount gives the same
    result. *)
Lemma scan_once_fuel d s extra :
  scan_once (2 * length s + 1 + extra) d s = scan_once (2 * length s + 1) d s.
Proof.
  induction extra as [|extra IH]; [by rewrite Nat.add_0_r|].
  rewrite Nat.add_succ_r, <- IH.
  apply (proj1 (scan_stable _)). lia.
Qed.

Theorem json_loads_enough_fuel d s fuel :
  2 * length s + 2 <= fuel -> json_loads_fuel fuel d s = json_loads_within d s.
Proof.
  intros Hf. unfold json_loads_within, json_loads_fuel.
  pose proof (skip_ws_length s) as Hws.
  replace fuel
    with (2 * length (skip_ws s) + 1 + (fuel - (2 * length (skip_ws s) + 1)))
    by lia.
  replace (2 * length s + 2)
    with (2 * length (skip_ws s) + 1
          + (2 * length s + 2 - (2 * length (skip_ws s) + 1)))
    by lia.
  by rewrite !scan_once_fuel.
Qed.

(** A document that decodes within some depth decodes to the same value
    within any greater one. *)
Lemma scan_deeper f :
  (forall d s res, scan_once f d s = Some res -> scan_once f (S d) s = Some res)
  /\ (forall d s acc res,
        JSONArray f d s acc = Some res -> JSONArray f (S d) s acc = Some res)
  /\ (forall d s acc res,
        JSONObject f d s acc = Some res -> JSONObject f (S d) s acc = Some res).
Proof.
  induction f as [|f (IHs & IHa & IHo)]; [done|].
  split_and!.
  - intros d s res H. destruct s as [|c r]; [done|].
    cbn [scan_once] in *.
    destruct (c =? 34)%N; [done|].
    destruct (c =? 123)%N.
    { destruct d as [|d]; [done|].
      destruct (skip_ws r) as [|c1 r1]; [done|].
      destruct (c1 =? 125)%N; [done|].
      destruct (c1 =? 34)%N; [|done]. by apply IHo. }
    destruct (c =? 91)%N; [|done].
    destruct d as [|d]; [done|].
    destruct (skip_ws r) as [|c1 r1]; [done|].
    destruct (c1 =? 93)%N; [done|]. by apply IHa.
  - intros d s acc res H. cbn [JSONArray] in *.
    destruct (scan_once f d s) as [[value rest]|] eqn:E; [|done].
    rewrite (IHs _ _ _ E). cbn [mbind option_bind] in *.
    destruct (skip_ws rest) as [|c r]; [done|].
    destruct (c =? 93)%N; [done|].
    destruct (c =? 44)%N; [|done]. by apply IHa.
  - intros d s acc res H. cbn [JSONObject] in *.
    destruct (scanstring s []) as [[key rest]|]; [|done].
    cbn [mbind option_bind] in *.
    destruct (skip_ws rest) as [|c r]; [done|].
    destruct (negb (c =? 58)%N); [done|].
    destruct (scan_once f d (skip_ws r)) as [[value rest']|] eqn:E; [|done].
    rewrite (IHs _ _ _ E). cbn [mbind option_bind] in *.
    destruct (skip_ws rest') as [|c' r']; [done|].
    destruct (c' =? 125)%N; [done|].
    destruct (c' =? 44)%N; [|done].
    destruct (skip_ws r') as [|q r'']; [done|].
    destruct (q =? 34)%N; [|done]. by apply IHo.
Qed.

Lemma json_loads_within_deeper d d' s v :
  json_loads_within d s = Some v -> d <= d' -> json_loads_within d' s = Some v.
Proof.
  intros H Hd. induction Hd as [|d' _ IH]; [done|].
  clear H. revert IH. unfold json_loads_within, json_loads_fuel.
  generalize (2 * length s + 2). intros f.
  assert (Hstep : forall x (k : pyval * pystr -> option pyval),
            scan_once f d' x ≫= k = Some v ->
            scan_once f (S d') x ≫= k = Some v).
  { intros x k Hx. destruct (scan_once f d' x) as [res|] eqn:E; [|done].
    by rewrite (proj1 (scan_deeper _) _ _ _ E). }
  intros IH. repeat case_match; try done; by apply Hstep.
Qed.

(** The decoder on some documents: a repeated key keeps its last value,
    a decimal too small for a double is the float zero, text that is not
    JSON and bytes that are not UTF-8 do not decode. *)
Example json_loads_samples :
  json_loads_utf8 (b ("{" +:+ quoted "stream" +:+ ": true, "
                      +:+ quoted "stream" +:+ ": false}"))
  = Some (PyDict [(stream_key, PyBool false)])
  /\ (truthy <$> json_loads_utf8 (b "1e-400")) = Some false
  /\ (truthy <$> json_loads_utf8 (b "NaN")) = Some true
  /\ json_loads_utf8 (b " [1, [2.5, null], {}] ")
     = Some (PyList [PyInt 1;
                     PyList [PyFloat (FDecimal false 25 (-1)); PyNone];
                     PyDict []])
  /\ json_loads_utf8 (b "not-json") = None
  /\ json_loads_utf8 (b "[1,]") = None
  /\ json_loads_utf8 [Byte.xff] = None.
Proof. repeat split; vm_compute; reflexivity. Qed.

(** The limits of the interpreter: a document nested deeper than the
    recursion left does not decode, and neither does one with an integer
    of more than 4300 digits; a float may have more. *)
Example json_loads_limits :
  json_loads_utf8_within 2 (b "[[]]") = Some (PyList [PyList []])
  /\ json_loads_utf8_within 1 (b "[[]]") = None
  /\ json_loads_utf8_within 0 (b "1") = Some (PyInt 1)
  /\ json_loads_utf8_within 0 (b "{}") = None
  /\ is_Some (json_loads_utf8 (replicate 4300 Byte.x31))
  /\ json_loads_utf8 (replicate 4301 Byte.x31) = None
  /\ is_Some (json_loads_utf8 (replicate 4301 Byte.x31 ++ b ".5")).
Proof. repeat split; vm_compute; by eauto. Qed.

(* ===================================================================== *)
(** * The streaming classifier *)
(* ===================================================================== *)

Section Classifier.
Variable loads : bytes -> option pyval.

(** A body that does not decode is read as the empty object. *)
Lemma classify_invalid body :
  loads body = None -> classify loads body = io_ret false.
Proof. intros H. unfold classify. by rewrite H. Qed.

(** A body that decodes to an object is classified by the truth value
    of its [stream] field, [False] when the field is absent. *)
Lemma classify_object body d :
  loads body = Some (PyDict d) ->
  classify loads body = io_ret (truthy (default PyNone (dict_get d stream_key))).
Proof. intros H. unfold classify. by rewrite H. Qed.

(** A body that decodes to anything but an object makes [payload.get]
    raise. *)
Lemma classify_non_object body v :
  loads body = Some v ->
  (forall d, v <> PyDict d) ->
  classify loads body = raise (AttributeError "get").
Proof.
  intros H Hv. unfold classify. rewrite H.
  destruct v; try done. by destruct (Hv d).
Qed.

(** The classifier answers [True] exactly for the bodies that decode to
    an object with a truthy [stream] field. *)
Lemma classify_true_iff body :
  classify loads body = io_ret true
  <-> exists d v, loads body = Some (PyDict d)
                  /\ dict_get d stream_key = Some v /\ truthy v = true.
Proof.
  split.
  - unfold classify. destruct (loads body) as [v|] eqn:Hl; [|done].
    destruct v; try done. cbn. intros [= Ht].
    destruct (dict_get d _) as [v|] eqn:Hg; [|done].
    by exists d, v.
  - intros (d & v & Hl & Hg & Ht).
    rewrite (classify_object _ _ Hl). fold stream_key in Hg.
    by rewrite Hg; cbn; rewrite Ht.
Qed.

(** The classifier never answers with an event, and raises nothing but
    the [AttributeError]. *)
Lemma classify_cases body :
  (exists flag, classify loads body = io_ret flag)
  \/ classify loads body = raise (AttributeError "get").
Proof.
  unfold classify. destruct (loads body) as [v|]; [|by left; eexists].
  destruct v; try (by right). left. by eexists.
Qed.
End Classifier.

(** The body [[]] makes the classifier raise whenever any recursion is
    left to the decoder. *)
Lemma classify_json_array_within d :
  classify (json_loads_utf8_within (S d)) (b "[]") = raise (AttributeError "get").
Proof. vm_compute. reflexivity. Qed.

(** C2. The body [[]] is valid JSON without a [stream] field, and the
    classifier does not answer [False] for it: the lookup of the field on
    the decoded list raises [AttributeError]. *)
Theorem classify_raises_on_json_array :
  json_loads_utf8 (b "[]") = Some (PyList [])
  /\ classify json_loads_utf8 (b "[]") = raise (AttributeError "get").
Proof. split; vm_compute; reflexivity. Qed.

(* ===================================================================== *)
(** * Events of a run *)
(* ===================================================================== *)

Lemma opened_app evs1 evs2 : opened (evs1 ++ evs2) = opened evs1 ++ opened evs2.
Proof. apply omap_app. Qed.

Lemma opened_reads n : opened (replicate n EvRead) = [].
Proof. induction n; [done|]. done. Qed.

Lemma reads_app evs1 evs2 : reads (evs1 ++ evs2) = reads evs1 + reads evs2.
Proof.
  induction evs1 as [|ev evs1 IH]; [done|].
  destruct ev; cbn; by rewrite ?IH.
Qed.

Lemma yielded_app outs1 outs2 :
  yielded (outs1 ++ outs2) = yielded outs1 ++ yielded outs2.
Proof. apply omap_app. Qed.

Lemma gen_except_opened e : opened (gen_except e).1 = [].
Proof. destruct e; done. Qed.

Lemma gen_except_reads e : reads (gen_except e).1 = 0.
Proof. destruct e; done. Qed.

Lemma gen_except_yielded e : yielded [(gen_except e).2] = [].
Proof. destruct e; done. Qed.

(* ===================================================================== *)
(** * The handler *)
(* ===================================================================== *)

Section HandlerFacts.
Variable loads : bytes -> option pyval.
Variable upstream : UpstreamRequest -> connect_result.
Variable cfg : Config.

Lemma handler_raises request e :
  classify loads (request_body request) = raise e ->
  proxy_chat_completions loads upstream cfg request
  = ([EvPrint (DebugBody (request_body request))], inl e).
Proof. intros Hc. unfold proxy_chat_completions. by rewrite Hc. Qed.

Lemma handler_streaming request :
  classify loads (request_body request) = io_ret true ->
  proxy_chat_completions loads upstream cfg request
  = (debug_prints cfg request,
     inr (inr {| body_iterator := GenCreated (upstream_request cfg request);
                 streaming_status_code := 200;
                 streaming_media_type := "text/event-stream" |})).
Proof. intros Hc. unfold proxy_chat_completions. by rewrite Hc. Qed.

Lemma handler_connect_fails request e :
  classify loads (request_body request) = io_ret false ->
  upstream (upstream_request cfg request) = ConnectFails e ->
  proxy_chat_completions loads upstream cfg request
  = (debug_prints cfg request ++ [EvOpen (upstream_request cfg request)], inl e).
Proof.
  intros Hc Hu. unfold proxy_chat_completions. rewrite Hc. cbn.
  unfold with_stream. by rewrite Hu.
Qed.

(** Reading the whole body requests every chunk and the end of the
    stream. *)
Lemma aread_ok chunks :
  aread chunks None = (replicate (S (length chunks)) EvRead, inr (mjoin chunks)).
Proof.
  induction chunks as [|c chunks IH]; [done|].
  cbn [aread]. rewrite IH. by cbn; rewrite app_nil_r.
Qed.

Lemma aread_fails chunks e :
  aread chunks (Some e) = (replicate (S (length chunks)) EvRead, inl e).
Proof.
  induction chunks as [|c chunks IH]; [done|].
  cbn [aread]. by rewrite IH.
Qed.

Lemma handler_read_fails request r e :
  classify loads (request_body request) = io_ret false ->
  upstream (upstream_request cfg request) = Connected r ->
  resp_end r = Some e ->
  proxy_chat_completions loads upstream cfg request
  = (debug_prints cfg request ++ EvOpen (upstream_request cfg request)
       :: replicate (S (length (resp_chunks r))) EvRead ++ [EvClose],
     inl e).
Proof.
  intros Hc Hu He. unfold proxy_chat_completions. rewrite Hc. cbn.
  unfold with_stream. rewrite Hu, He, aread_fails. by cbn.
Qed.

Lemma handler_buffered request r :
  classify loads (request_body request) = io_ret false ->
  upstream (upstream_request cfg request) = Connected r ->
  resp_end r = None ->
  proxy_chat_completions loads upstream cfg request
  = (debug_prints cfg request ++ EvOpen (upstream_request cfg request)
       :: replicate (S (length (resp_chunks r))) EvRead ++ [EvClose],
     inr (inl {| content := mjoin (resp_chunks r);
                 response_status_code := status_code r;
                 response_headers :=
                   _filtered_headers_for_client (httpx_items (resp_headers r));
                 media_type :=
                   let content_type :=
                     httpx_get (resp_headers r) "content-type" "" in
                   if decide (content_type = "") then None
                   else Some content_type |})).
Proof.
  intros Hc Hu He. unfold proxy_chat_completions. rewrite Hc. cbn.
  unfold with_stream. rewrite Hu, He, aread_ok. cbn.
  by rewrite app_nil_r.
Qed.

(** In non-streaming mode the handler sends one request and returns no
    streaming response. *)
Lemma handler_non_streaming request :
  classify loads (request_body request) = io_ret false ->
  opened (proxy_chat_completions loads upstream cfg request).1
  = [upstream_request cfg request]
  /\ forall sr,
       (proxy_chat_completions loads upstream cfg request).2 <> inr (inr sr).
Proof.
  intros Hc.
  destruct (upstream (upstream_request cfg request)) as [e|r] eqn:Hu.
  - by rewrite (handler_connect_fails _ _ Hc Hu).
  - destruct (resp_end r) as [e|] eqn:He.
    + rewrite (handler_read_fails _ _ _ Hc Hu He).
      split; [|done]. cbn. by rewrite opened_app, opened_reads.
    + rewrite (handler_buffered _ _ Hc Hu He).
      split; [|done]. cbn. by rewrite opened_app, opened_reads.
Qed.

(** A body that is not JSON, or is a JSON object without the stream
    flag, is classified non-streaming and forwarded as it is. *)
Lemma malformed_body_is_forwarded request :
  loads (request_body request) = None
  \/ (exists d, loads (request_body request) = Some (PyDict d)
                /\ dict_get d stream_key = None) ->
  classify loads (request_body request) = io_ret false
  /\ opened (proxy_chat_completions loads upstream cfg request).1
     = [upstream_request cfg request]
  /\ up_content (upstream_request cfg request) = request_body request.
Proof.
  intros H.
  assert (Hc : classify loads (request_body request) = io_ret false).
  { destruct H as [H|(d & H & Hd)].
    - by apply classify_invalid.
    - rewrite (classify_object _ _ _ H). by rewrite Hd. }
  split_and!; [done| |done]. by apply handler_non_streaming.
Qed.
End HandlerFacts.

(** C3. The body [[]] is valid JSON without a [stream] field, and the
    handler fails the request on it: the [AttributeError] of the
    classifier leaves the handler before anything is sent upstream, and
    the client is answered with status 500. *)
Theorem handler_fails_on_json_array upstream cfg h :
  let request := {| request_body := b "[]"; request_headers := h |} in
  proxy_chat_completions json_loads_utf8 upstream cfg request
  = ([EvPrint (DebugBody (b "[]"))], inl (AttributeError "get"))
  /\ opened (proxy_chat_completions json_loads_utf8 upstream cfg request).1 = []
  /\ client_status (proxy_chat_completions json_loads_utf8 upstream cfg request).2 = 500%Z.
Proof.
  intros request.
  assert (H : proxy_chat_completions json_loads_utf8 upstream cfg request
              = ([EvPrint (DebugBody (b "[]"))], inl (AttributeError "get"))).
  { apply handler_raises. vm_compute. reflexivity. }
  rewrite H. done.
Qed.

(* ===================================================================== *)
(** * Runs of the generator: the requests sent *)
(* ===================================================================== *)

Section GeneratorFacts.
Variable upstream : UpstreamRequest -> connect_result.

Lemma gen_step_started a s s' evs out :
  started s -> event_generator upstream a s = Some (s', evs, out) ->
  started s' /\ opened evs = [].
Proof.
  intros Hs H. step_cases H; cbn; try done; by rewrite ?gen_except_opened.
Qed.

(** Once started, the generator stays started and sends no further
    request. *)
Lemma gen_run_started acts s st evs outs :
  started s -> gen_run upstream acts s = Some (st, evs, outs) ->
  started st /\ opened evs = [].
Proof.
  revert s evs outs. induction acts as [|a acts IH]; intros s evs outs Hs H.
  - by simplify_eq/=.
  - cbn in H.
    destruct (event_generator upstream a s) as [[[s1 evs1] out1]|] eqn:E1; [|done].
    cbn in H.
    destruct (gen_run upstream acts s1) as [[[s2 evs2] outs2]|] eqn:E2; [|done].
    simplify_eq/=. destruct (gen_step_started _ _ _ _ _ Hs E1) as [Hs1 Ho1].
    rewrite opened_app, Ho1. by eapply IH.
Qed.

(** A generator sends at most the request it was created with, and
    exactly that one when it is started. *)
Lemma gen_run_opened acts req st evs outs :
  gen_run upstream acts (GenCreated req) = Some (st, evs, outs) ->
  (forall req', req' ∈ opened evs -> req' = req)
  /\ (forall acts', acts = Next :: acts' -> opened evs = [req]).
Proof.
  destruct acts as [|a acts]; intros H.
  - simplify_eq/=. split; [by intros ? ?%elem_of_nil|done].
  - cbn in H.
    destruct (event_generator upstream a (GenCreated req)) as [[[s1 evs1] out1]|] eqn:E1; [|done].
    cbn in H. destruct (gen_run upstream acts s1) as [[[s2 evs2] outs2]|] eqn:E2; [|done].
    simplify_eq/=. destruct a; simplify_eq/=.
    + rewrite (proj2 (gen_run_started _ (GenConnecting req) _ _ _ I E2)).
      split; [by intros ? ->%list_elem_of_singleton|done].
    + rewrite (proj2 (gen_run_started _ GenClosed _ _ _ I E2)).
      split; [by intros ? ?%elem_of_nil|done].
Qed.
End GeneratorFacts.

(* ===================================================================== *)
(** * The forwarded request *)
(* ===================================================================== *)

(** C4. Every request the proxy sends upstream while serving an inbound
    request carries the inbound body, byte for byte: the one sent by the
    handler in non-streaming mode (exactly one is sent), and the one sent
    by the generator of a streaming response under any schedule (exactly
    one once the generator is started). *)
Theorem upstream_body_verbatim loads upstream cfg request evs res :
  proxy_chat_completions loads upstream cfg request = (evs, res) ->
  (forall req, req ∈ opened evs -> up_content req = request_body request)
  /\ (classify loads (request_body request) = io_ret false ->
      exists req, opened evs = [req] /\ up_content req = request_body request)
  /\ (forall sr acts st gevs outs,
        res = inr (inr sr) ->
        gen_run upstream acts (body_iterator sr) = Some (st, gevs, outs) ->
        (forall req, req ∈ opened gevs -> up_content req = request_body request)
        /\ (forall acts', acts = Next :: acts' ->
            exists req, opened gevs = [req]
                        /\ up_content req = request_body request)).
Proof.
  intros H.
  destruct (classify_cases loads (request_body request)) as [[[] Hc]|Hc].
  - (* streaming *)
    rewrite (handler_streaming _ _ _ _ Hc) in H. simplify_eq.
    split_and!.
    + by intros ? ?%elem_of_nil.
    + by rewrite Hc.
    + intros sr acts st gevs outs [= <-] Hrun. cbn in Hrun.
      destruct (gen_run_opened _ _ _ _ _ _ Hrun) as [Hall Hone].
      split.
      * by intros req ->%Hall.
      * intros acts' ->. rewrite (Hone _ eq_refl). by eexists.
  - (* non-streaming *)
    destruct (handler_non_streaming loads upstream cfg request Hc) as [Ho Hns].
    rewrite H in Ho, Hns. cbn [fst snd] in Ho, Hns.
    rewrite Ho. split_and!.
    + by intros req ->%list_elem_of_singleton.
    + by eexists.
    + intros sr ????? . by destruct (Hns sr).
  - (* the classifier raises *)
    rewrite (handler_raises _ _ _ _ _ Hc) in H. simplify_eq.
    split_and!.
    + by intros ? ?%elem_of_nil.
    + by rewrite Hc.
    + done.
Qed.

(* ===================================================================== *)
(** * Non-streaming mode *)
(* ===================================================================== *)









(** C8. When a request is classified non-streaming and the upstream call
    fails, at the connection or at any read of the body, the exception
    leaves the handler: no response is returned, neither a made-up one
    nor one built from the chunks read so far, and the client is
    answered with status 500. *)
Theorem buffered_failure_propagates loads upstream cfg request e :
  classify loads (request_body request) = io_ret false ->
  (upstream (upstream_request cfg request) = ConnectFails e
   \/ exists r, upstream (upstream_request cfg request) = Connected r
                /\ resp_end r = Some e) ->
  exists evs,
    proxy_chat_completions loads upstream cfg request = (evs, inl e)
    /\ client_status (proxy_chat_completions loads upstream cfg request).2 = 500%Z
    /\ forall resp,
         (proxy_chat_completions loads upstream cfg request).2 <> inr resp.
Proof.
  intros Hc [Hu|(r & Hu & He)].
  - rewrite (handler_connect_fails _ _ _ _ _ Hc Hu). by eexists.
  - rewrite (handler_read_fails _ _ _ _ _ _ Hc Hu He). by eexists.
Qed.

(* ===================================================================== *)
(** * Streaming mode: runs of the generator *)
(* ===================================================================== *)

Section Relay.
Variable upstream : UpstreamRequest -> connect_result.

Lemma gen_run_app acts1 acts2 s :
  gen_run upstream (acts1 ++ acts2) s
  = '(s1, evs1, outs1) ← gen_run upstream acts1 s;
    '(s2, evs2, outs2) ← gen_run upstream acts2 s1;
    Some (s2, evs1 ++ evs2, outs1 ++ outs2).
Proof.
  revert s. induction acts1 as [|a acts1 IH]; intros s.
  - cbn. by destruct (gen_run upstream acts2 s) as [[[??]?]|].
  - cbn. destruct (event_generator upstream a s) as [[[s1 evs1] out1]|]; [|done].
    cbn. rewrite IH.
    destruct (gen_run upstream acts1 s1) as [[[s2 evs2] outs2]|]; [|done].
    cbn. destruct (gen_run upstream acts2 s2) as [[[s3 evs3] outs3]|]; [|done].
    cbn. by rewrite !app_assoc.
Qed.

(** Nothing moves a finished generator. *)
Lemma gen_run_closed acts st evs outs :
  gen_run upstream acts GenClosed = Some (st, evs, outs) ->
  acts = [] /\ st = GenClosed /\ evs = [] /\ outs = [].
Proof. destruct acts as [|[] acts]; intros H; by simplify_eq/=. Qed.

(** The relay loop of a patient consumer: one read per chunk, the
    non-empty chunks handed on in order. *)
Lemma relay_loop chunks fin :
  gen_run upstream
    (flat_map (fun c => if bytes_truthy c then [Arrive; Next] else [Arrive]) chunks)
    (GenReading chunks fin)
  = Some (GenReading [] fin, replicate (length chunks) EvRead,
          Yield <$> filter bytes_truthy chunks).
Proof.
  induction chunks as [|c chunks IH]; [done|].
  cbn [flat_map]. rewrite gen_run_app, filter_cons.
  destruct c as [|x c].
  - cbn. rewrite IH. done.
  - cbn. rewrite IH. done.
Qed.

(** The whole run of a patient consumer over an answered request. *)
Lemma patient_run req r :
  upstream req = Connected r ->
  gen_run upstream (patient (resp_chunks r)) (GenCreated req)
  = Some (GenClosed,
          EvOpen req :: replicate (S (length (resp_chunks r))) EvRead
            ++ EvClose :: match resp_end r with
                          | None => []
                          | Some e => (gen_except e).1
                          end,
          (Yield <$> filter bytes_truthy (resp_chunks r))
            ++ [match resp_end r with
                | None => StopAsyncIteration
                | Some e => (gen_except e).2
                end]).
Proof.
  intros Hu. unfold patient.
  rewrite gen_run_app. cbn. rewrite Hu. cbn.
  rewrite gen_run_app, relay_loop. cbn.
  destruct (resp_end r) as [e|]; cbn.
  - destruct (gen_except e) as [evs out]. cbn.
    by rewrite app_nil_r.
  - done.
Qed.

(** In every run from an open response, the chunks handed on are the
    non-empty ones of a prefix of the chunks to come, and no chunk
    beyond the one after that prefix has been requested. *)
Lemma relay_invariant acts : forall s rest fin st evs outs,
  relaying s rest fin ->
  gen_run upstream acts s = Some (st, evs, outs) ->
  exists pre post,
    rest = pre ++ post
    /\ yielded outs = filter bytes_truthy pre
    /\ reads evs + pending s <= S (length pre)
    /\ (st = GenClosed \/ relaying st post fin).
Proof.
  induction acts as [|a acts IH]; intros s rest fin st evs outs Hs H.
  - simplify_eq/=. exists [], rest.
    split_and!; [done|done| |by right].
    destruct Hs as [-> | ->]; cbn; lia.
  - cbn in H.
    destruct (event_generator upstream a s) as [[[s1 evs1] out1]|] eqn:E1; [|done].
    cbn in H.
    destruct (gen_run upstream acts s1) as [[[s2 evs2] outs2]|] eqn:E2; [|done].
    simplify_eq/=.
    destruct Hs as [-> | ->]; step_cases E1;
      try (apply gen_run_closed in E2 as (-> & -> & -> & ->);
           exists []; eexists;
           split_and!;
           [reflexivity
           |rewrite app_nil_r; unfold option_list; cbn [option_rect];
            by rewrite ?gen_except_yielded
           |rewrite app_nil_r; cbn; rewrite ?gen_except_reads; cbn; lia
           |by left]).
    + (* a non-empty chunk arrives *)
      destruct (IH _ _ _ _ _ _ (or_intror eq_refl) E2)
        as (pre & post & -> & Hy & Hr & Hst).
      eexists (_ :: pre), post. split; [reflexivity|].
      rewrite filter_cons, decide_True by (by apply Is_true_true).
      cbn in Hr |- *.
      split_and!; [f_equal; exact Hy|lia|done].
    + (* an empty chunk arrives *)
      destruct (IH _ _ _ _ _ _ (or_introl eq_refl) E2)
        as (pre & post & -> & Hy & Hr & Hst).
      eexists (_ :: pre), post. split; [reflexivity|].
      rewrite filter_cons, decide_False by (by apply Is_true_false).
      cbn in Hr |- *.
      split_and!; [exact Hy|lia|done].
    + (* the consumer asks for the next chunk *)
      destruct (IH _ _ _ _ _ _ (or_introl eq_refl) E2)
        as (pre & post & -> & Hy & Hr & Hst).
      exists pre, post. cbn in *.
      split_and!; [done|done|lia|done].
Qed.

(** The same from the creation of the generator, for an answered
    request. *)
Lemma relay_invariant_created acts req r st evs outs :
  upstream req = Connected r ->
  gen_run upstream acts (GenCreated req) = Some (st, evs, outs) ->
  exists pre post,
    resp_chunks r = pre ++ post
    /\ yielded outs = filter bytes_truthy pre
    /\ reads evs <= S (length pre).
Proof.
  intros Hu H.
  destruct acts as [|a acts].
  { simplify_eq/=. exists [], (resp_chunks r). split_and!; [done|done|cbn; lia]. }
  cbn in H.
  destruct (event_generator upstream a (GenCreated req)) as [[[s1 evs1] out1]|] eqn:E1; [|done].
  cbn in H.
  destruct (gen_run upstream acts s1) as [[[s2 evs2] outs2]|] eqn:E2; [|done].
  simplify_eq/=. step_cases E1.
  - (* started *)
    destruct acts as [|a' acts].
    { simplify_eq/=. exists [], (resp_chunks r). split_and!; [done|done|cbn; lia]. }
    cbn in E2.
    destruct (event_generator upstream a' (GenConnecting req)) as [[[s1 evs1] out1]|] eqn:E1; [|done].
    cbn in E2.
    destruct (gen_run upstream acts s1) as [[[s3 evs3] outs3]|] eqn:E3; [|done].
    simplify_eq/=. step_cases E1.
    + destruct (relay_invariant _ _ _ _ _ _ _ (or_introl eq_refl) E3)
        as (pre & post & -> & Hy & Hr & _).
      exists pre, post. cbn in *. split_and!; [done|done|lia].
    + apply gen_run_closed in E3 as (-> & -> & -> & ->).
      exists [], (resp_chunks r). split_and!; [done|done|cbn; lia].
  - (* cancelled before it started *)
    apply gen_run_closed in E2 as (-> & -> & -> & ->).
    exists [], (resp_chunks r). split_and!; [done|done|cbn; lia].
Qed.

(** Unless the consumer leaves, the state decides who moves next. *)
Lemma gen_step_unique a a' s :
  a <> Cancel -> a' <> Cancel ->
  is_Some (event_generator upstream a s) -> is_Some (event_generator upstream a' s) ->
  a = a'.
Proof.
  intros Ha Ha' [? H] [? H'].
  destruct a, a'; try done; destruct s; by simplify_eq/=.
Qed.

(** So a consumer that stays to the end can be served in one way only. *)
Lemma complete_run_unique acts : forall acts' s evs outs evs' outs',
  Cancel ∉ acts -> Cancel ∉ acts' ->
  gen_run upstream acts s = Some (GenClosed, evs, outs) ->
  gen_run upstream acts' s = Some (GenClosed, evs', outs') ->
  acts = acts'.
Proof.
  induction acts as [|a acts IH]; intros acts' s evs outs evs' outs' Hc Hc' H H'.
  - simplify_eq/=. by apply gen_run_closed in H' as (-> & _).
  - destruct acts' as [|a' acts'].
    { simplify_eq/=. by destruct a. }
    cbn in H, H'.
    destruct (event_generator upstream a s) as [[[s1 evs1] out1]|] eqn:E1; [|done].
    destruct (event_generator upstream a' s) as [[[s1' evs1'] out1']|] eqn:E1'; [|done].
    apply not_elem_of_cons in Hc as [Ha Hc].
    apply not_elem_of_cons in Hc' as [Ha' Hc'].
    assert (a = a') as <-.
    { apply (gen_step_unique a a' s); [done|done| |]; by eexists. }
    simplify_eq. cbn in H, H'.
    destruct (gen_run upstream acts s1) as [[[s2 evs2] outs2]|] eqn:E2; [|done].
    destruct (gen_run upstream acts' s1) as [[[s2' evs2'] outs2']|] eqn:E2'; [|done].
    simplify_eq/=. f_equal. by eapply IH.
Qed.

Lemma patient_cancel_free chunks : Cancel ∉ patient chunks.
Proof.
  unfold patient. rewrite !not_elem_of_app. split_and!.
  - by intros [?|[?|?%elem_of_nil]%elem_of_cons]%elem_of_cons.
  - induction chunks as [|c chunks IH]; [by intros ?%elem_of_nil|].
    cbn [flat_map]. rewrite not_elem_of_app. split; [|done].
    destruct (bytes_truthy c).
    + by intros [?|[?|?%elem_of_nil]%elem_of_cons]%elem_of_cons.
    + by intros [?|?%elem_of_nil]%elem_of_cons.
  - by intros [?|?%elem_of_nil]%elem_of_cons.
Qed.

(** What a consumer that stays to the end of an answered request
    observes. *)
Lemma complete_run req r acts evs outs :
  upstream req = Connected r ->
  Cancel ∉ acts ->
  gen_run upstream acts (GenCreated req) = Some (GenClosed, evs, outs) ->
  acts = patient (resp_chunks r)
  /\ outs = (Yield <$> filter bytes_truthy (resp_chunks r))
            ++ [match resp_end r with
                | None => StopAsyncIteration
                | Some e => (gen_except e).2
                end].
Proof.
  intros Hu Hc Hrun.
  pose proof (patient_run req r Hu) as Hp.
  assert (acts = patient (resp_chunks r)) as ->.
  { eapply complete_run_unique; [done|apply patient_cancel_free|done|done]. }
  split; [done|]. rewrite Hp in Hrun. by simplify_eq.
Qed.



End Relay.

(** Dropping the empty chunks does not change the bytes of the stream. *)
Lemma mjoin_filter_truthy (chunks : list bytes) :
  mjoin (filter bytes_truthy chunks) = mjoin chunks.
Proof.
  induction chunks as [|c chunks IH]; [done|].
  rewrite filter_cons. destruct c as [|x c].
  - rewrite decide_False by (cbn; tauto). exact IH.
  - rewrite decide_True by done. cbn. do 2 f_equal. exact IH.
Qed.


(** An [Exception] is caught by the generator. *)
Lemma gen_except_Exception e :
  is_Exception e = true -> (gen_except e).2 = StopAsyncIteration.
Proof. by destruct e. Qed.

Section FailureFacts.
Variable upstream : UpstreamRequest -> connect_result.

Lemma gen_step_safe a s s' evs out :
  safe upstream s -> a <> Cancel ->
  event_generator upstream a s = Some (s', evs, out) ->
  safe upstream s' /\ forall e, out <> Some (Propagate e).
Proof.
  intros Hs Ha H.
  step_cases H; unfold safe, upstream_ok in *; cbn in *; try done;
    repeat match goal with
      | E : upstream _ = _ |- _ => rewrite E in Hs; cbn in Hs
      end;
    try (split; [done|]; by rewrite ?gen_except_Exception).
Qed.

(** As long as the consumer stays, no exception leaves the generator. *)
Lemma gen_run_safe acts : forall s st evs outs,
  safe upstream s -> Cancel ∉ acts ->
  gen_run upstream acts s = Some (st, evs, outs) ->
  forall e, Propagate e ∉ outs.
Proof.
  induction acts as [|a acts IH]; intros s st evs outs Hs Hc H e.
  - simplify_eq/=. by intros ?%elem_of_nil.
  - cbn in H.
    destruct (event_generator upstream a s) as [[[s1 evs1] out1]|] eqn:E1; [|done].
    cbn in H.
    destruct (gen_run upstream acts s1) as [[[s2 evs2] outs2]|] eqn:E2; [|done].
    simplify_eq/=. apply not_elem_of_cons in Hc as [Ha Hc].
    destruct (gen_step_safe _ _ _ _ _ Hs (not_eq_sym Ha) E1) as [Hs1 Hout].
    intros [Hin|Hin]%elem_of_app.
    + destruct out1 as [o|]; [|by apply elem_of_nil in Hin].
      apply list_elem_of_singleton in Hin as <-. by destruct (Hout e).
    + by eapply IH.
Qed.
End FailureFacts.

(* ===================================================================== *)
(** * Streaming mode: the claims *)
(* ===================================================================== *)

(** C6, as the code has it. For a request classified streaming, the
    handler returns a response with status 200 and media type
    text/event-stream before anything is sent upstream.  Under every
    schedule the chunks handed to the client are the non-empty chunks of
    a prefix of the upstream chunks, unmodified and in arrival order, and
    at most one chunk beyond that prefix has been requested; empty
    chunks are skipped, which leaves the bytes of the stream unchanged.
    When the upstream stream ends normally, a consumer that stays to
    the end receives every non-empty chunk and then the end of the
    stream, whatever the schedule, and the upstream response is
    closed. *)
Theorem streaming_relay_in_order loads upstream cfg request :
  classify loads (request_body request) = io_ret true ->
  exists evs sr,
    proxy_chat_completions loads upstream cfg request = (evs, inr (inr sr))
    /\ streaming_status_code sr = 200%Z
    /\ streaming_media_type sr = "text/event-stream"
    /\ opened evs = [] /\ reads evs = 0
    /\ forall r,
         upstream (upstream_request cfg request) = Connected r ->
         (forall acts st gevs outs,
             gen_run upstream acts (body_iterator sr) = Some (st, gevs, outs) ->
             exists pre post,
               resp_chunks r = pre ++ post
               /\ yielded outs = filter bytes_truthy pre
               /\ reads gevs <= S (length pre))
         /\ mjoin (filter bytes_truthy (resp_chunks r)) = mjoin (resp_chunks r)
         /\ (resp_end r = None ->
             gen_run upstream (patient (resp_chunks r)) (body_iterator sr)
             = Some (GenClosed,
                     EvOpen (upstream_request cfg request)
                       :: replicate (S (length (resp_chunks r))) EvRead ++ [EvClose],
                     (Yield <$> filter bytes_truthy (resp_chunks r))
                       ++ [StopAsyncIteration])
             /\ forall acts gevs outs,
                  Cancel ∉ acts ->
                  gen_run upstream acts (body_iterator sr)
                  = Some (GenClosed, gevs, outs) ->
                  outs = (Yield <$> filter bytes_truthy (resp_chunks r))
                           ++ [StopAsyncIteration]).
Proof.
  intros Hc. do 2 eexists. split; [by apply handler_streaming|].
  cbn [body_iterator streaming_status_code streaming_media_type].
  split_and!; try done.
  intros r Hu. split_and!.
  - intros acts st gevs outs Hrun. by eapply relay_invariant_created.
  - apply mjoin_filter_truthy.
  - intros He. split.
    + rewrite (patient_run _ _ _ Hu), He. done.
    + intros acts gevs outs Hnc Hrun.
      destruct (complete_run _ _ _ _ _ _ Hu Hnc Hrun) as [_ ->].
      by rewrite He.
Qed.

(** C6, as stated, fails: an empty chunk received from upstream is not
    forwarded, so the chunks the client receives are not always the
    chunks the upstream sent. *)
Lemma streaming_relay_skips_empty_chunk :
  ~ (forall (upstream : UpstreamRequest -> connect_result) req r st gevs outs,
        upstream req = Connected r ->
        resp_end r = None ->
        gen_run upstream (patient (resp_chunks r)) (GenCreated req)
        = Some (st, gevs, outs) ->
        yielded outs = resp_chunks r).
Proof.
  intros H.
  set (r := {| status_code := 200; resp_headers := [];
               resp_chunks := [b "data: a"; []; b "data: b"];
               resp_end := None |}).
  set (req := {| up_method := "POST"; up_url := "http://upstream/chat/completions";
                 up_headers := []; up_content := b "{}" |}).
  specialize (H (fun _ => Connected r) req r _ _ _ eq_refl eq_refl eq_refl).
  vm_compute in H. discriminate H.
Qed.

(** C7. For a request classified streaming, the client response has
    status 200 and media type text/event-stream whatever the upstream
    does; when the upstream connection fails, the client stream ends at
    once with no chunk; when a read fails after some chunks, the stream
    ends after the (non-empty) chunks read before the failure, whatever
    the schedule of a consumer that stays, and the upstream response is
    closed; in both cases the stream ends normally,
    and as long as the consumer stays no exception leaves the
    generator.  The failure [e] is any [Exception], [httpx.StreamClosed]
    included. *)
Theorem streaming_failure_is_swallowed loads upstream cfg request e :
  classify loads (request_body request) = io_ret true ->
  is_Exception e = true ->
  exists evs sr,
    proxy_chat_completions loads upstream cfg request = (evs, inr (inr sr))
    /\ client_status (inr (inr sr)) = 200%Z
    /\ streaming_media_type sr = "text/event-stream"
    /\ (upstream (upstream_request cfg request) = ConnectFails e ->
        exists gevs,
          gen_run upstream [Next; Arrive] (body_iterator sr)
          = Some (GenClosed, gevs, [StopAsyncIteration])
          /\ reads gevs = 0)
    /\ (forall r,
          upstream (upstream_request cfg request) = Connected r ->
          resp_end r = Some e ->
          (exists gevs,
              gen_run upstream (patient (resp_chunks r)) (body_iterator sr)
              = Some (GenClosed, gevs,
                      (Yield <$> filter bytes_truthy (resp_chunks r))
                        ++ [StopAsyncIteration])
              /\ EvClose ∈ gevs)
          /\ forall acts gevs outs,
               Cancel ∉ acts ->
               gen_run upstream acts (body_iterator sr)
               = Some (GenClosed, gevs, outs) ->
               outs = (Yield <$> filter bytes_truthy (resp_chunks r))
                        ++ [StopAsyncIteration])
    /\ ((upstream (upstream_request cfg request) = ConnectFails e
         \/ exists r, upstream (upstream_request cfg request) = Connected r
                      /\ resp_end r = Some e) ->
        forall acts st gevs outs e',
          Cancel ∉ acts ->
          gen_run upstream acts (body_iterator sr) = Some (st, gevs, outs) ->
          Propagate e' ∉ outs).
Proof.
  intros Hc He. do 2 eexists. split; [by apply handler_streaming|].
  cbn [body_iterator streaming_status_code streaming_media_type].
  split_and!; try done.
  - intros Hu. cbn. rewrite Hu. cbn.
    pose proof (gen_except_Exception e He) as Hout.
    destruct (gen_except e) as [gevs out] eqn:Hex. cbn in Hout. subst out.
    eexists. split; [done|].
    cbn. rewrite app_nil_r.
    change gevs with ((gevs, StopAsyncIteration).1). rewrite <- Hex.
    apply gen_except_reads.
  - intros r Hu Hr. split.
    + rewrite (patient_run _ _ _ Hu), Hr.
      rewrite (gen_except_Exception e He). eexists. split; [done|].
      right. apply elem_of_app. right. left.
    + intros acts gevs outs Hnc Hrun.
      destruct (complete_run _ _ _ _ _ _ Hu Hnc Hrun) as [_ ->].
      by rewrite Hr, (gen_except_Exception e He).
  - intros Hfail acts st gevs outs e' Hnc Hrun.
    eapply (gen_run_safe upstream); [|exact Hnc|exact Hrun].
    cbn. unfold upstream_ok.
    destruct Hfail as [Hu|(r & Hu & Hr)]; rewrite Hu; [done|].
    by rewrite Hr.
Qed.


(* ===================================================================== *)
(** * The unused API key *)
(* ===================================================================== *)

Lemma dict_set_elem {K V} `{EqDecision K} (d : dict K V) k v kv :
  kv ∈ dict_set d k v -> kv ∈ d \/ kv = (k, v).
Proof.
  induction d as [|[k' v'] d IH]; cbn.
  - intros ->%list_elem_of_singleton. by right.
  - destruct (decide (k' = k)) as [->|Hne].
    + intros [->|Hin]%elem_of_cons; [by right|]. left. by right.
    + intros [->|Hin]%elem_of_cons; [left; by left|].
      destruct (IH Hin) as [?|?]; [left; by right|by right].
Qed.

(** Every entry of a filtered mapping is an entry of the input. *)
Lemma filter_loop_elem excl (items acc : headers) kv :
  kv ∈ fold_left (filter_step excl) items acc -> kv ∈ acc \/ kv ∈ items.
Proof.
  revert acc. induction items as [|[k v] items IH]; intros acc; cbn [fold_left].
  - by left.
  - intros [Hin|Hin]%IH; [|right; by right].
    unfold filter_step in Hin. case_bool_decide; [by left|].
    apply dict_set_elem in Hin as [?| ->]; [by left|right; by left].
Qed.

Lemma header_filter_elem dir (h : headers) kv :
  kv ∈ header_filter dir h -> kv ∈ h.
Proof.
  rewrite header_filter_unfold.
  by intros [?%elem_of_nil|?]%filter_loop_elem.
Qed.

(** C10. Two configurations that differ only in [UPSTREAM_API_KEY] make
    the handler behave alike on every request: the request it prepares
    for the upstream (URL, headers, body), what it prints, sends and
    returns, and every run of the generator of a streaming response are
    the same.  Every outbound header is one of the inbound headers, so
    the key is in no outbound header unless the client sent it. *)
Theorem api_key_is_not_used loads upstream request cfg1 cfg2 :
  same_but_key cfg1 cfg2 ->
  upstream_request cfg1 request = upstream_request cfg2 request
  /\ proxy_chat_completions loads upstream cfg1 request
     = proxy_chat_completions loads upstream cfg2 request
  /\ (forall acts,
        gen_run upstream acts (GenCreated (upstream_request cfg1 request))
        = gen_run upstream acts (GenCreated (upstream_request cfg2 request)))
  /\ (forall kv, kv ∈ up_headers (upstream_request cfg1 request) ->
                 kv ∈ request_headers request)
  /\ (forall key,
        UPSTREAM_API_KEY cfg1 = Some key ->
        ~ mentions key (request_headers request) ->
        ~ mentions key (up_headers (upstream_request cfg1 request))).
Proof.
  intros (Hurl & _ & _).
  assert (Hreq : upstream_request cfg1 request = upstream_request cfg2 request).
  { unfold upstream_request, upstream_url. by rewrite Hurl. }
  assert (Hsub : forall kv, kv ∈ up_headers (upstream_request cfg1 request) ->
                            kv ∈ request_headers request).
  { intros kv. apply (header_filter_elem ToUpstream). }
  split_and!; [done| |by intros; rewrite Hreq|done|].
  - unfold proxy_chat_completions. by rewrite Hreq.
  - intros key _ Hno (k & v & Hin & Hocc). apply Hno.
    exists k, v. split; [by apply Hsub|done].
Qed.

(* ===================================================================== *)
(** * The claims at sample inputs *)
(* ===================================================================== *)

Lemma upstream_body_verbatim_witness :
  exists req,
    opened (proxy_chat_completions json_loads_utf8 upstream_json
              default_config request_not_json).1 = [req]
    /\ up_content req = b "not-json".
Proof.
  edestruct (upstream_body_verbatim json_loads_utf8 upstream_json default_config
               request_not_json) as (_ & H & _).
  - vm_compute. reflexivity.
  - apply H. vm_compute. reflexivity.
Defined.


Lemma streaming_relay_in_order_witness :
  exists evs sr,
    proxy_chat_completions json_loads_utf8 (upstream_chunks [chunk_a; chunk_b])
      default_config request_stream = (evs, inr (inr sr))
    /\ streaming_status_code sr = 200%Z
    /\ streaming_media_type sr = "text/event-stream"
    /\ exists gevs,
         gen_run (upstream_chunks [chunk_a; chunk_b])
           (patient [chunk_a; chunk_b]) (body_iterator sr)
         = Some (GenClosed, gevs, [Yield chunk_a; Yield chunk_b; StopAsyncIteration]).
Proof.
  destruct (streaming_relay_in_order json_loads_utf8
              (upstream_chunks [chunk_a; chunk_b]) default_config request_stream)
    as (evs & sr & H & Hs & Hm & _ & _ & Hr).
  - vm_compute. reflexivity.
  - exists evs, sr. split_and!; [exact H|exact Hs|exact Hm|].
    destruct (Hr _ eq_refl) as (_ & _ & Hrun).
    eexists. exact (proj1 (Hrun eq_refl)).
Defined.

Lemma streaming_failure_is_swallowed_witness :
  exists evs sr,
    proxy_chat_completions json_loads_utf8 upstream_down default_config
      request_stream = (evs, inr (inr sr))
    /\ client_status (inr (inr sr)) = 200%Z
    /\ streaming_media_type sr = "text/event-stream"
    /\ exists gevs,
         gen_run upstream_down [Next; Arrive] (body_iterator sr)
         = Some (GenClosed, gevs, [StopAsyncIteration]).
Proof.
  destruct (streaming_failure_is_swallowed json_loads_utf8 upstream_down
              default_config request_stream (TransportError "ConnectError"))
    as (evs & sr & H & Hs & Hm & Hdown & _).
  - vm_compute. reflexivity.
  - reflexivity.
  - exists evs, sr. split_and!; [exact H|exact Hs|exact Hm|].
    destruct (Hdown eq_refl) as (gevs & Hrun & _). by exists gevs.
Defined.

Lemma buffered_failure_propagates_witness :
  exists evs,
    proxy_chat_completions json_loads_utf8 upstream_down default_config
      request_plain = (evs, inl (TransportError "ConnectError"))
    /\ client_status
         (proxy_chat_completions json_loads_utf8 upstream_down default_config
            request_plain).2 = 500%Z.
Proof.
  destruct (buffered_failure_propagates json_loads_utf8 upstream_down
              default_config request_plain (TransportError "ConnectError"))
    as (evs & H & Hs & _).
  - vm_compute. reflexivity.
  - left. reflexivity.
  - exists evs. split; [exact H|exact Hs].
Defined.


Lemma api_key_is_not_used_witness :
  same_but_key default_config keyed_config
  /\ proxy_chat_completions json_loads_utf8 upstream_json default_config request_plain
     = proxy_chat_completions json_loads_utf8 upstream_json keyed_config request_plain.
Proof.
  assert (H : same_but_key default_config keyed_config) by (by repeat split).
  split; [exact H|].
  exact (proj1 (proj2 (api_key_is_not_used json_loads_utf8 upstream_json
                         request_plain default_config keyed_config H))).
Defined.

(* ===================================================================== *)
(** * The scenarios of the specification *)
(* ===================================================================== *)

(** Scenario 1: a plain request is answered with the upstream status,
    content type and body. *)
Example scenario_buffered :
  (proxy_chat_completions json_loads_utf8 upstream_json default_config
     request_plain).2
  = inr (inl {| content := b ("{" +:+ quoted "id" +:+ ":" +:+ quoted "1" +:+ "}");
                response_status_code := 200;
                response_headers := [("content-type", "application/json")];
                media_type := Some "application/json" |}).
Proof. vm_compute. reflexivity. Qed.

(** Scenario 2: two chunks are relayed in order, then the stream ends. *)
Example scenario_two_chunks :
  let up := upstream_chunks [chunk_a; chunk_b] in
  let req := upstream_request default_config request_stream in
  gen_run up (patient [chunk_a; chunk_b]) (GenCreated req)
  = Some (GenClosed, [EvOpen req; EvRead; EvRead; EvRead; EvClose],
          [Yield chunk_a; Yield chunk_b; StopAsyncIteration]).
Proof. vm_compute. reflexivity. Qed.

(** Scenario 3: the upstream cannot be reached; the stream ends with no
    chunk. *)
Example scenario_upstream_down :
  let req := upstream_request default_config request_stream in
  gen_run upstream_down [Next; Arrive] (GenCreated req)
  = Some (GenClosed,
          [EvOpen req;
           EvPrint (DebugStreamError (TransportError "ConnectError"))],
          [StopAsyncIteration]).
Proof. vm_compute. reflexivity. Qed.

(** Scenario 4, with the client leaving while the second chunk is
    awaited. *)
Example scenario_disconnect_while_reading :
  let up := upstream_chunks [chunk_a; chunk_b; chunk_c] in
  let req := upstream_request default_config request_stream in
  gen_run up [Next; Arrive; Arrive; Next; Cancel] (GenCreated req)
  = Some (GenClosed, [EvOpen req; EvRead; EvRead; EvClose],
          [Yield chunk_a; Propagate CancelledError]).
Proof. vm_compute. reflexivity. Qed.

(** The client leaves while the entry of [client.stream(...)] is still
    awaited: the generator has no response yet and closes nothing. *)
Example scenario_disconnect_while_connecting :
  let up := upstream_chunks [chunk_a; chunk_b; chunk_c] in
  let req := upstream_request default_config request_stream in
  gen_run up [Next; Cancel] (GenCreated req)
  = Some (GenClosed, [EvOpen req], [Propagate CancelledError]).
Proof. vm_compute. reflexivity. Qed.

(** Scenario 5: a body that is not JSON is forwarded as it is. *)
Example scenario_not_json :
  classify json_loads_utf8 (b "not-json") = io_ret false
  /\ opened (proxy_chat_completions json_loads_utf8 upstream_json default_config
               request_not_json).1
     = [{| up_method := "POST";
           up_url := "https://any.host.exposing.chat.completion.api/v1/chat/completions";
           up_headers := [("content-type", "application/json");
                          ("authorization", "Bearer client-token")];
           up_content := b "not-json" |}].
Proof. split; vm_compute; reflexivity. Qed.

(** A stream that breaks after one chunk ends after that chunk. *)
Example scenario_broken_stream :
  let req := upstream_request default_config request_stream in
  gen_run (upstream_broken [chunk_a]) (patient [chunk_a]) (GenCreated req)
  = Some (GenClosed,
          [EvOpen req; EvRead; EvRead; EvClose;
           EvPrint (DebugStreamError (TransportError "ReadError"))],
          [Yield chunk_a; StopAsyncIteration]).
Proof. vm_compute. reflexivity. Qed.

(** Truthiness decides the classification, whatever the type of the
    field. *)
Example classify_truthy_values :
  classify json_loads_utf8 (b ("{" +:+ quoted "stream" +:+ ":1}")) = io_ret true
  /\ classify json_loads_utf8 (b ("{" +:+ quoted "stream" +:+ ":0}")) = io_ret false
  /\ classify json_loads_utf8 (b ("{" +:+ quoted "stream" +:+ ":null}")) = io_ret false
  /\ classify json_loads_utf8
       (b ("{" +:+ quoted "stream" +:+ ":" +:+ quoted "false" +:+ "}")) = io_ret true
  /\ classify json_loads_utf8 (b "{}") = io_ret false.
Proof. repeat split; vm_compute; reflexivity. Qed.

(** Trailing slashes of the base URL are dropped. *)
Example upstream_url_rstrip :
  upstream_url {| UPSTREAM_BASE_URL := "http://up/v1//"; UPSTREAM_API_KEY := None;
                  PROXY_HOST := "0.0.0.0"; PROXY_PORT := 8000 |}
  = "http://up/v1/chat/completions".
Proof. reflexivity. Qed.

(* ===================================================================== *)
(** * The upstream URL *)
(* ===================================================================== *)

Lemma rstrip_slash_no_slash s : ends_with_slash (rstrip_slash s) = false.
Proof.
  induction s as [|c s IH]; [done|].
  cbn [rstrip_slash]. destruct (rstrip_slash s) as [|c' t] eqn:E.
  - destruct (Ascii.eqb c "/") eqn:Ec; [done|]. cbn. exact Ec.
  - exact IH.
Qed.

Lemma rstrip_slash_split s :
  exists n, s = rstrip_slash s +:+ slashes n.
Proof.
  induction s as [|c s [n IH]]; [by exists 0|].
  cbn [rstrip_slash]. destruct (rstrip_slash s) as [|c' t] eqn:E.
  - destruct (Ascii.eqb_spec c "/") as [->|Hc].
    + exists (S n).
      change (String "/" s = String "/" (EmptyString +:+ slashes n)).
      by rewrite <- IH.
    + exists n. change (String c s = String c (EmptyString +:+ slashes n)).
      by rewrite <- IH.
  - exists n. change (String c s = String c (String c' t +:+ slashes n)).
    by rewrite <- IH.
Qed.

Lemma rstrip_slash_only n : rstrip_slash (slashes n) = EmptyString.
Proof. induction n as [|n IH]; [done|]. cbn [slashes rstrip_slash]. by rewrite IH. Qed.

Lemma rstrip_slash_slashes s n : rstrip_slash (s +:+ slashes n) = rstrip_slash s.
Proof.
  induction s as [|c s IH].
  - apply rstrip_slash_only.
  - change (String c s +:+ slashes n) with (String c (s +:+ slashes n)).
    cbn [rstrip_slash]. by rewrite IH.
Qed.

(** X1. The upstream URL is the base URL without its trailing slashes,
    followed by [/chat/completions]: the stem it is built on does not end
    in a slash, the base URL is that stem followed by slashes only, and
    adding slashes to the end of the base URL does not change the URL.  A
    base URL made of slashes only, or empty, gives the bare path. *)
Theorem upstream_url_normalized (cfg : Config) :
  let stem := rstrip_slash (UPSTREAM_BASE_URL cfg) in
  upstream_url cfg = stem +:+ "/chat/completions"
  /\ ends_with_slash stem = false
  /\ (exists n, UPSTREAM_BASE_URL cfg = stem +:+ slashes n)
  /\ (forall n,
        upstream_url (with_base_url cfg (UPSTREAM_BASE_URL cfg +:+ slashes n))
        = upstream_url cfg)
  /\ (forall n,
        upstream_url (with_base_url cfg (slashes n)) = "/chat/completions").
Proof.
  intros stem. split_and!.
  - done.
  - apply rstrip_slash_no_slash.
  - apply rstrip_slash_split.
  - intros n. unfold upstream_url. cbn [with_base_url UPSTREAM_BASE_URL].
    by rewrite rstrip_slash_slashes.
  - intros n. unfold upstream_url. cbn [with_base_url UPSTREAM_BASE_URL].
    change (slashes n) with (EmptyString +:+ slashes n).
    by rewrite rstrip_slash_slashes.
Qed.

(* ===================================================================== *)
(** * The two header filters together *)
(* ===================================================================== *)

Lemma header_filter_elem_iff dir (h : headers) k v :
  dict_wf h ->
  (k, v) ∈ header_filter dir h <-> (k, v) ∈ h /\ lower k ∉ exclusion_set dir.
Proof.
  intros Hwf. rewrite header_filter_is_filter by done.
  by rewrite list_elem_of_filter, (comm and).
Qed.

Lemma header_filter_wf dir (h : headers) :
  dict_wf h -> dict_wf (header_filter dir h).
Proof.
  intros Hwf. rewrite header_filter_is_filter by done. by apply dict_wf_filter.
Qed.

(** X2. On a header mapping, filtering twice in one direction is
    filtering once, the two directions can be applied in either order,
    the result is never longer than the input, and the input comes back
    unchanged exactly when none of its names is excluded. *)
Theorem header_filter_idempotent (dir dir' : direction) (h : headers) :
  dict_wf h ->
  header_filter dir (header_filter dir h) = header_filter dir h
  /\ header_filter dir (header_filter dir' h)
     = header_filter dir' (header_filter dir h)
  /\ length (header_filter dir h) <= length h
  /\ (header_filter dir h = h
      <-> forall k v, (k, v) ∈ h -> lower k ∉ exclusion_set dir).
Proof.
  intros Hwf.
  pose proof (header_filter_wf dir h Hwf) as Hwf1.
  pose proof (header_filter_wf dir' h Hwf) as Hwf2.
  split_and!.
  - rewrite (header_filter_is_filter dir (header_filter dir h)) by done.
    rewrite (header_filter_is_filter dir h) by done.
    by apply list_filter_filter_l.
  - rewrite (header_filter_is_filter dir (header_filter dir' h)) by done.
    rewrite (header_filter_is_filter dir' (header_filter dir h)) by done.
    rewrite (header_filter_is_filter dir h), (header_filter_is_filter dir' h) by done.
    rewrite !list_filter_filter. apply list_filter_iff. intros x. tauto.
  - rewrite header_filter_is_filter by done. apply length_filter.
  - rewrite header_filter_is_filter by done. split.
    + intros Heq k v Hin. rewrite <- Heq in Hin.
      by apply list_elem_of_filter in Hin as [? _].
    + intros Hall. clear -Hall.
      induction h as [|[k v] h IH]; [done|].
      rewrite filter_cons_True; [|apply (Hall k v); left].
      f_equal. apply IH. intros k' v' Hin. apply (Hall k' v'). by right.
Qed.

Lemma header_filter_idempotent_witness :
  let h := [("Host", "proxy.local"); ("Content-Encoding", "gzip");
            ("X-Trace", "1")] in
  dict_wf h
  /\ header_filter ToClient (header_filter ToUpstream h) = [("X-Trace", "1")]
  /\ header_filter ToUpstream (header_filter ToClient h) = [("X-Trace", "1")].
Proof.
  intros h.
  assert (Hwf : dict_wf h).
  { unfold dict_wf. apply (bool_decide_unpack _). vm_compute. exact I. }
  split; [exact Hwf|].
  rewrite <- (proj1 (proj2 (header_filter_idempotent ToClient ToUpstream h Hwf))).
  split; vm_compute; reflexivity.
Defined.

Lemma exclusion_sets_differ s :
  (s ∈ hop_by_hop_upstream /\ s ∉ hop_by_hop_client <-> s ∈ upstream_only)
  /\ (s ∈ hop_by_hop_client /\ s ∉ hop_by_hop_upstream <-> s = "content-encoding").
Proof.
  assert (H1 : hop_by_hop_upstream ∖ hop_by_hop_client
               = list_to_set upstream_only).
  { apply (bool_decide_unpack _). vm_compute. exact I. }
  assert (H2 : hop_by_hop_client ∖ hop_by_hop_upstream
               = {[ "content-encoding" ]}).
  { apply (bool_decide_unpack _). vm_compute. exact I. }
  split.
  - rewrite <- elem_of_difference, H1. apply elem_of_list_to_set.
  - rewrite <- elem_of_difference, H2. apply elem_of_singleton.
Qed.

(** X3. The two directions treat an entry of a header mapping differently
    for four names only: host, content-length and accept-encoding are
    removed on the way to the upstream and kept on the way to the
    client, content-encoding is removed on the way to the client and
    kept on the way to the upstream; names are compared in lower
    case. *)
Theorem header_filter_directions_differ (h : headers) k v :
  dict_wf h ->
  (k, v) ∈ h ->
  ((k, v) ∈ header_filter ToClient h /\ (k, v) ∉ header_filter ToUpstream h
   <-> lower k ∈ upstream_only)
  /\ ((k, v) ∈ header_filter ToUpstream h /\ (k, v) ∉ header_filter ToClient h
      <-> lower k = "content-encoding").
Proof.
  intros Hwf Hin. rewrite !header_filter_elem_iff by done.
  destruct (exclusion_sets_differ (lower k)) as [H1 H2]. cbn [exclusion_set].
  destruct (decide (lower k ∈ hop_by_hop_upstream));
    destruct (decide (lower k ∈ hop_by_hop_client)); split; tauto.
Qed.

Lemma header_filter_directions_differ_witness :
  let h := [("Content-Length", "15"); ("Content-Encoding", "gzip")] in
  dict_wf h
  /\ ("Content-Length", "15") ∈ header_filter ToClient h
  /\ ("Content-Length", "15") ∉ header_filter ToUpstream h.
Proof.
  intros h.
  assert (Hwf : dict_wf h).
  { unfold dict_wf. apply (bool_decide_unpack _). vm_compute. exact I. }
  split; [exact Hwf|].
  apply (header_filter_directions_differ h "Content-Length" "15" Hwf).
  - left.
  - vm_compute. right. left.
Defined.

(* ===================================================================== *)
(** * The requests sent upstream *)
(* ===================================================================== *)

(** Every entry the loop adds is retained, whatever the items are. *)
Lemma filter_loop_retained excl (items acc : headers) kv :
  kv ∈ fold_left (filter_step excl) items acc ->
  kv ∈ acc \/ (kv ∈ items /\ retained excl kv).
Proof.
  revert acc. induction items as [|[k v] items IH]; intros acc; cbn [fold_left].
  - by left.
  - intros [Hin|[Hin Hr]]%IH.
    + unfold filter_step in Hin. case_bool_decide as Hex; [by left|].
      apply dict_set_elem in Hin as [?| ->]; [by left|].
      right. split; [left|done].
    + right. split; [by right|done].
Qed.

Lemma upstream_request_shape cfg request :
  outbound_shape cfg request (upstream_request cfg request).
Proof.
  split_and!; try done.
  intros k v Hin. cbn [up_headers upstream_request] in Hin.
  change (_filtered_headers_for_upstream (request_headers request))
    with (header_filter ToUpstream (request_headers request)) in Hin.
  rewrite header_filter_unfold in Hin.
  by apply filter_loop_retained in Hin as [?%elem_of_nil|[? ?]].
Qed.

Lemma gen_run_opened_cases upstream acts req st evs outs :
  gen_run upstream acts (GenCreated req) = Some (st, evs, outs) ->
  opened evs = [] \/ opened evs = [req].
Proof.
  destruct acts as [|a acts]; intros H.
  - simplify_eq/=. by left.
  - cbn in H.
    destruct (event_generator upstream a (GenCreated req))
      as [[[s1 evs1] out1]|] eqn:E1; [|done].
    cbn in H.
    destruct (gen_run upstream acts s1) as [[[s2 evs2] outs2]|] eqn:E2; [|done].
    simplify_eq/=. destruct a; simplify_eq/=.
    + right. by rewrite (proj2 (gen_run_started _ _ (GenConnecting req) _ _ _ I E2)).
    + left. by rewrite (proj2 (gen_run_started _ _ GenClosed _ _ _ I E2)).
Qed.

(** What the handler itself sends, by the way it ends. *)
Lemma handler_opened_cases loads upstream cfg request :
  let out := proxy_chat_completions loads upstream cfg request in
  (opened out.1 = []
   /\ (out.2 = inl (AttributeError "get")
       \/ out.2 = inr (inr {| body_iterator := GenCreated (upstream_request cfg request);
                              streaming_status_code := 200;
                              streaming_media_type := "text/event-stream" |})))
  \/ (opened out.1 = [upstream_request cfg request]
      /\ forall sr, out.2 <> inr (inr sr)).
Proof.
  intros out. subst out.
  destruct (classify_cases loads (request_body request)) as [[[] Hc]|Hc].
  - left. rewrite (handler_streaming _ _ _ _ Hc). split; [done|by right].
  - right. by apply handler_non_streaming.
  - left. rewrite (handler_raises _ _ _ _ _ Hc). split; [done|by left].
Qed.

(** X4. While it serves one inbound request the proxy sends at most one
    request to the upstream, from the handler in non-streaming mode or
    from the generator in streaming mode, never from both; each is a POST
    to the base URL without trailing slashes followed by
    [/chat/completions], carries the inbound body, and has only headers
    that the client sent and whose lower-cased name is outside the
    to-upstream exclusion set.  This holds for any header items, also
    with repeated names. *)
Theorem outbound_request_shape loads upstream cfg request evs res :
  proxy_chat_completions loads upstream cfg request = (evs, res) ->
  length (opened evs) <= 1
  /\ (forall req, req ∈ opened evs -> outbound_shape cfg request req)
  /\ (forall sr acts st gevs outs,
        res = inr (inr sr) ->
        gen_run upstream acts (body_iterator sr) = Some (st, gevs, outs) ->
        length (opened (evs ++ gevs)) <= 1
        /\ forall req, req ∈ opened (evs ++ gevs) -> outbound_shape cfg request req).
Proof.
  intros H.
  pose proof (handler_opened_cases loads upstream cfg request) as Hcases.
  rewrite H in Hcases. cbn [fst snd] in Hcases.
  destruct Hcases as [[Ho Hres]|[Ho Hns]]; rewrite ?Ho.
  - split_and!; [cbn; lia|by intros ? ?%elem_of_nil|].
    intros sr acts st gevs outs -> Hrun.
    destruct Hres as [?|[= ->]]; [done|]. cbn in Hrun.
    rewrite opened_app, Ho. cbn [app].
    destruct (gen_run_opened_cases _ _ _ _ _ _ Hrun) as [-> | ->].
    + split; [cbn; lia|by intros ? ?%elem_of_nil].
    + split; [cbn; lia|].
      intros req ->%list_elem_of_singleton. apply upstream_request_shape.
  - split_and!; [cbn; lia| |].
    + intros req ->%list_elem_of_singleton. apply upstream_request_shape.
    + intros sr ????? . by destruct (Hns sr).
Qed.

Lemma outbound_request_shape_witness :
  exists req,
    opened (proxy_chat_completions json_loads_utf8 upstream_json default_config
              request_plain).1 = [req]
    /\ outbound_shape default_config request_plain req.
Proof.
  edestruct (outbound_request_shape json_loads_utf8 upstream_json default_config
               request_plain) as (_ & H & _).
  - vm_compute. reflexivity.
  - eexists. split; [vm_compute; reflexivity|]. apply H. left.
Defined.

(* ===================================================================== *)
(** * The upstream connection is scoped *)
(* ===================================================================== *)

Lemma protocol_app c evs1 evs2 :
  protocol c (evs1 ++ evs2) = protocol c evs1 ≫= fun c' => protocol c' evs2.
Proof.
  revert c. induction evs1 as [|ev evs1 IH]; intros c; [done|].
  destruct ev, c; cbn; by rewrite ?IH.
Qed.

Lemma protocol_except c e : protocol c (gen_except e).1 = Some c.
Proof. by destruct e. Qed.

Lemma protocol_reads n evs :
  protocol ConnOpen (replicate n EvRead ++ evs) = protocol ConnOpen evs.
Proof. induction n as [|n IH]; [done|]. exact IH. Qed.

(** A connection that was requested never counts as not requested. *)
Lemma protocol_idle c evs :
  protocol c evs = Some ConnIdle -> c = ConnIdle /\ opened evs = [].
Proof.
  revert c. induction evs as [|ev evs IH]; intros c H.
  - by simplify_eq/=.
  - destruct ev, c; cbn in H; try done;
      apply IH in H as [? ?]; done.
Qed.

Section Discipline.
Variable upstream : UpstreamRequest -> connect_result.

Lemma gen_step_protocol req0 a s c n s1 evs1 out1 :
  conn_agrees upstream req0 s c n ->
  event_generator upstream a s = Some (s1, evs1, out1) ->
  exists c1, protocol c evs1 = Some c1
             /\ conn_agrees upstream req0 s1 c1 (n + reads evs1).
Proof.
  intros Hs H.
  destruct s, c; try done; destruct a; cbn in H, Hs; simplify_eq;
    repeat case_match; simplify_eq; destruct_and?; simplify_eq;
    try (eexists; split; [reflexivity|]; cbn; split_and?; eauto; lia).
  all: match goal with
       | E : gen_except ?e = (?evs, _) |- _ =>
           pose proof (protocol_except ConnOpen e) as Hp;
           pose proof (protocol_except ConnReleased e) as Hp';
           pose proof (gen_except_reads e) as Hr;
           rewrite E in Hp, Hp', Hr; cbn [fst] in Hp, Hp', Hr
       end.
  - exists ConnOpen. split; [done|]. cbn. lia.
  - exists ConnReleased. split; [done|]. cbn. split; [lia|done].
Qed.

Lemma gen_run_protocol req0 acts : forall s c n st evs outs,
  conn_agrees upstream req0 s c n ->
  gen_run upstream acts s = Some (st, evs, outs) ->
  exists c', protocol c evs = Some c'
             /\ conn_agrees upstream req0 st c' (n + reads evs).
Proof.
  induction acts as [|a acts IH]; intros s c n st evs outs Hs H.
  - simplify_eq/=. exists c. by rewrite Nat.add_0_r.
  - cbn in H.
    destruct (event_generator upstream a s) as [[[s1 evs1] out1]|] eqn:E1; [|done].
    cbn in H.
    destruct (gen_run upstream acts s1) as [[[s2 evs2] outs2]|] eqn:E2; [|done].
    simplify_eq/=.
    destruct (gen_step_protocol _ _ _ _ _ _ _ _ Hs E1) as (c1 & Hp1 & Hs1).
    destruct (IH _ _ _ _ _ _ Hs1 E2) as (c2 & Hp2 & Hs2).
    exists c2. rewrite protocol_app, Hp1, reads_app, Nat.add_assoc. by split.
Qed.

(** Nothing is handed on before a chunk was requested. *)
Lemma gen_run_unread acts : forall s st gevs outs,
  gen_run upstream acts s = Some (st, gevs, outs) ->
  response_open s = false -> reads gevs = 0 -> yielded outs = [].
Proof.
  induction acts as [|a acts IH]; intros s st gevs outs H Ho Hr.
  - by simplify_eq/=.
  - cbn in H.
    destruct (event_generator upstream a s) as [[[s1 evs1] out1]|] eqn:E1; [|done].
    cbn in H.
    destruct (gen_run upstream acts s1) as [[[s2 evs2] outs2]|] eqn:E2; [|done].
    simplify_eq/=. rewrite reads_app in Hr. rewrite yielded_app.
    assert (Hstep : response_open s1 = false /\ yielded (option_list out1) = []).
    { destruct a, s as [r|r|[|c rest] [e|]|rest fin|]; cbn in E1, Ho;
        repeat case_match; simplify_eq/=; try done; try lia.
      all: match goal with
           | E : gen_except ?e = (_, ?o) |- _ =>
               pose proof (gen_except_yielded e) as Hy; rewrite E in Hy;
               by cbn in Hy
           end. }
    destruct Hstep as [Ho1 ->]. apply (IH _ _ _ _ E2 Ho1). lia.
Qed.
End Discipline.

(** X5. Under every schedule, also one that ends with the client leaving
    or with an upstream failure, the events of [event_generator] keep the
    discipline of a scoped connection: the request is sent once, chunks
    are read only while the response is open, and the response is closed
    once.  A finished generator has released the response whenever it
    held one, that is whenever a chunk was requested; the request stays
    unanswered only when no chunk was requested or handed on, and never
    when the consumer stayed and the upstream answered. *)
Theorem generator_connection_is_scoped upstream req acts st gevs outs :
  gen_run upstream acts (GenCreated req) = Some (st, gevs, outs) ->
  exists c,
    protocol ConnIdle gevs = Some c
    /\ conn_agrees upstream req st c (reads gevs)
    /\ (st = GenClosed -> 0 < reads gevs -> c = ConnReleased)
    /\ (st = GenClosed -> c = ConnOpen ->
        reads gevs = 0 /\ yielded outs = [])
    /\ (st = GenClosed -> Cancel ∉ acts ->
        (exists r, upstream req = Connected r) -> c = ConnReleased).
Proof.
  intros Hrun.
  destruct (gen_run_protocol upstream req acts (GenCreated req) ConnIdle 0
              _ _ _ (conj eq_refl eq_refl) Hrun) as (c & Hp & Hc).
  cbn [Nat.add] in Hc.
  assert (Hrel : st = GenClosed -> 0 < reads gevs -> c = ConnReleased).
  { intros -> Hr. destruct c; cbn in Hc; [lia|lia|done]. }
  exists c. split_and!; [done|done|done| |].
  - intros -> ->. cbn in Hc. split; [done|].
    by eapply (gen_run_unread upstream).
  - intros -> Hnc [r Hu]. apply Hrel; [done|].
    destruct (complete_run upstream _ _ _ _ _ Hu Hnc Hrun) as [-> _].
    rewrite (patient_run upstream req r Hu) in Hrun. simplify_eq.
    cbn. lia.
Qed.

Lemma generator_connection_is_scoped_witness :
  let up := upstream_broken [chunk_a] in
  let req := upstream_request default_config request_stream in
  exists gevs,
    gen_run up (patient [chunk_a]) (GenCreated req)
    = Some (GenClosed, gevs, [Yield chunk_a; StopAsyncIteration])
    /\ protocol ConnIdle gevs = Some ConnReleased.
Proof.
  intros up req.
  edestruct (generator_connection_is_scoped up req (patient [chunk_a]))
    as (c & Hp & _ & Hrel & _).
  - vm_compute. reflexivity.
  - eexists. split; [reflexivity|].
    etrans; [exact Hp|].
    f_equal. apply Hrel; [reflexivity|]. vm_compute. lia.
Defined.

(** X6. The events of the handler keep the same discipline.  In
    non-streaming mode the response of an upstream that answered is closed
    when the handler ends, whether the body was read to the end or a read
    failed; when the connection fails nothing is left to close; in
    streaming mode, and when the classification raises, the handler does
    not touch the upstream at all. *)
Theorem handler_connection_is_scoped loads upstream cfg request :
  let evs := (proxy_chat_completions loads upstream cfg request).1 in
  let req := upstream_request cfg request in
  let buffered := classify loads (request_body request) = io_ret false in
  exists c,
    protocol ConnIdle evs = Some c
    /\ (c = ConnReleased <-> buffered /\ exists r, upstream req = Connected r)
    /\ (c = ConnOpen <-> buffered /\ exists e, upstream req = ConnectFails e)
    /\ (c = ConnIdle <-> ~ buffered /\ opened evs = [] /\ reads evs = 0).
Proof.
  intros evs req buffered. subst evs req buffered.
  destruct (classify_cases loads (request_body request)) as [[[] Hc]|Hc].
  - rewrite (handler_streaming _ _ _ _ Hc). exists ConnIdle.
    rewrite Hc. split_and!; [done| | |]; split; try done; by intros [? _].
  - destruct (upstream (upstream_request cfg request)) as [e|r] eqn:Hu.
    + rewrite (handler_connect_fails _ _ _ _ _ Hc Hu). exists ConnOpen.
      split_and!; [done| | |]; split; try done.
      * by intros [_ [r ?]].
      * by eauto.
      * by intros [? _].
    + assert (Hp : protocol ConnIdle
                (proxy_chat_completions loads upstream cfg request).1
              = Some ConnReleased).
      { destruct (resp_end r) as [e|] eqn:He.
        - rewrite (handler_read_fails _ _ _ _ _ _ Hc Hu He). cbn [fst].
          unfold debug_prints. cbn [app protocol].
          by rewrite (protocol_reads (S _)).
        - rewrite (handler_buffered _ _ _ _ _ Hc Hu He). cbn [fst].
          unfold debug_prints. cbn [app protocol].
          by rewrite (protocol_reads (S _)). }
      exists ConnReleased. split_and!; [done| | |]; split; try done.
      * by eauto.
      * by intros [_ [e ?]].
      * by intros [? _].
  - rewrite (handler_raises _ _ _ _ _ Hc). exists ConnIdle.
    rewrite Hc. split_and!; [done| | |]; split; try done; by intros [? _].
Qed.

(* ===================================================================== *)
(** * The relayed bytes *)
(* ===================================================================== *)

Lemma filter_truthy_nonempty (chunks : list bytes) :
  Forall (fun c => c <> []) (filter bytes_truthy chunks).
Proof.
  induction chunks as [|c chunks IH]; [constructor|].
  rewrite filter_cons. destruct c as [|x c].
  - by rewrite decide_False by (cbn; tauto).
  - rewrite decide_True by done. by constructor.
Qed.

(** A generator whose connection fails hands on nothing and reads
    nothing, whatever its consumer does. *)
Lemma connect_fails_run upstream req e acts st gevs outs :
  upstream req = ConnectFails e ->
  gen_run upstream acts (GenCreated req) = Some (st, gevs, outs) ->
  yielded outs = [] /\ reads gevs = 0.
Proof.
  intros Hu H.
  destruct acts as [|a acts]; [by simplify_eq/=|].
  cbn in H.
  destruct (event_generator upstream a (GenCreated req))
    as [[[s1 evs1] out1]|] eqn:E1; [|done].
  cbn in H.
  destruct (gen_run upstream acts s1) as [[[s2 evs2] outs2]|] eqn:E2; [|done].
  simplify_eq/=. destruct a; simplify_eq/=.
  - destruct acts as [|a' acts]; [by simplify_eq/=|].
    cbn in E2.
    destruct (event_generator upstream a' (GenConnecting req))
      as [[[s1 evs1] out1]|] eqn:E1; [|done].
    cbn in E2.
    destruct (gen_run upstream acts s1) as [[[s3 evs3] outs3]|] eqn:E3; [|done].
    simplify_eq/=. destruct a'; simplify_eq/=.
    + rewrite Hu in E1.
      pose proof (gen_except_yielded e) as Hy.
      pose proof (gen_except_reads e) as Hr.
      destruct (gen_except e) as [evs out]. simplify_eq/=.
      apply gen_run_closed in E3 as (-> & -> & -> & ->).
      rewrite !app_nil_r. split; [exact Hy|exact Hr].
    + by apply gen_run_closed in E3 as (-> & -> & -> & ->).
  - by apply gen_run_closed in E2 as (-> & -> & -> & ->).
Qed.

(** X7. Whatever the schedule, the upstream response and the way the run
    ends, the bytes the generator has handed to the client are a prefix
    of the bytes of the upstream body: nothing is invented, reordered,
    repeated or altered.  The chunks handed on are upstream chunks in
    their order, none of them empty, and when the connection fails there
    is none. *)
Theorem relayed_bytes_are_a_prefix upstream req acts st gevs outs :
  gen_run upstream acts (GenCreated req) = Some (st, gevs, outs) ->
  Forall (fun c => c <> []) (yielded outs)
  /\ (forall e, upstream req = ConnectFails e -> yielded outs = [])
  /\ (forall r, upstream req = Connected r ->
        mjoin (yielded outs) `prefix_of` mjoin (resp_chunks r)
        /\ yielded outs `sublist_of` resp_chunks r
        /\ length (yielded outs) <= length (resp_chunks r)).
Proof.
  intros Hrun.
  assert (Hconn : forall r, upstream req = Connected r ->
            exists pre post, resp_chunks r = pre ++ post
                             /\ yielded outs = filter bytes_truthy pre).
  { intros r Hu.
    destruct (relay_invariant_created _ _ _ _ _ _ _ Hu Hrun)
      as (pre & post & ? & ? & _).
    by exists pre, post. }
  split_and!.
  - destruct (upstream req) as [e|r] eqn:Hu.
    + by rewrite (proj1 (connect_fails_run _ _ _ _ _ _ _ Hu Hrun)).
    + destruct (Hconn r eq_refl) as (pre & post & _ & ->).
      apply filter_truthy_nonempty.
  - intros e Hu. by apply (connect_fails_run _ _ _ _ _ _ _ Hu Hrun).
  - intros r Hu. destruct (Hconn r Hu) as (pre & post & -> & ->).
    split_and!.
    + rewrite mjoin_filter_truthy.
      exists (mjoin post). apply (join_app pre post).
    + transitivity pre; [apply sublist_filter|by apply sublist_inserts_r].
    + rewrite length_app. pose proof (length_filter bytes_truthy pre). lia.
Qed.

Lemma relayed_bytes_are_a_prefix_witness :
  let up := upstream_broken [chunk_a; []; chunk_b] in
  let req := upstream_request default_config request_stream in
  exists st gevs outs,
    gen_run up [Next; Arrive; Arrive; Cancel] (GenCreated req)
    = Some (st, gevs, outs)
    /\ yielded outs = [chunk_a]
    /\ mjoin (yielded outs) `prefix_of` mjoin [chunk_a; []; chunk_b].
Proof.
  intros up req. do 3 eexists.
  split; [vm_compute; reflexivity|]. split; [reflexivity|].
  edestruct (relayed_bytes_are_a_prefix up req [Next; Arrive; Arrive; Cancel])
    as (_ & _ & H).
  - vm_compute. reflexivity.
  - exact (proj1 (H _ eq_refl)).
Defined.

(* ===================================================================== *)
(** * The two modes on one upstream answer *)
(* ===================================================================== *)





(* ===================================================================== *)
(** * The headers of a buffered response *)
(* ===================================================================== *)









(* ===================================================================== *)
(** * The generator always finishes *)
(* ===================================================================== *)

Lemma patient_length chunks :
  length (patient chunks)
  = 3 + length chunks + length (filter bytes_truthy chunks).
Proof.
  unfold patient. cbn [app length]. rewrite length_app. cbn [length].
  enough (length (flat_map (fun c => if bytes_truthy c then [Arrive; Next]
                                     else [Arrive]) chunks)
          = length chunks + length (filter bytes_truthy chunks)) by lia.
  induction chunks as [|c chunks IH]; [done|].
  cbn [flat_map]. rewrite length_app, IH, filter_cons.
  destruct c as [|x c].
  - rewrite decide_False by (cbn; tauto). cbn. lia.
  - rewrite decide_True by done. cbn. lia.
Qed.

(** A run without cancellation follows the one run that finishes. *)
Lemma cancel_free_run_prefix upstream acts : forall full s st evs outs evs' outs',
  Cancel ∉ acts -> Cancel ∉ full ->
  gen_run upstream acts s = Some (st, evs, outs) ->
  gen_run upstream full s = Some (GenClosed, evs', outs') ->
  (acts `prefix_of` full).
Proof.
  induction acts as [|a acts IH]; intros full s st evs outs evs' outs' Hc Hc' H H'.
  - apply prefix_nil.
  - destruct full as [|a' full].
    { simplify_eq/=. by destruct a. }
    cbn in H, H'.
    destruct (event_generator upstream a s) as [[[s1 evs1] out1]|] eqn:E1; [|done].
    destruct (event_generator upstream a' s) as [[[s1' evs1'] out1']|] eqn:E1'; [|done].
    apply not_elem_of_cons in Hc as [Ha Hc].
    apply not_elem_of_cons in Hc' as [Ha' Hc'].
    assert (a = a') as <-.
    { apply (gen_step_unique upstream a a' s); [done|done| |]; by eexists. }
    simplify_eq. cbn in H, H'.
    destruct (gen_run upstream acts s1) as [[[s2 evs2] outs2]|] eqn:E2; [|done].
    destruct (gen_run upstream full s1) as [[[s2' evs2'] outs2']|] eqn:E2'; [|done].
    simplify_eq/=. apply prefix_cons. by eapply IH.
Qed.

Lemma schedule_run upstream req :
  (Cancel ∉ schedule upstream req)
  /\ exists evs outs,
       gen_run upstream (schedule upstream req) (GenCreated req)
       = Some (GenClosed, evs, outs).
Proof.
  unfold schedule. destruct (upstream req) as [e|r] eqn:Hu.
  - split.
    + by intros [?|[?|?%elem_of_nil]%elem_of_cons]%elem_of_cons.
    + cbn. rewrite Hu. destruct (gen_except e) as [gevs out]. cbn.
      by do 2 eexists.
  - split; [apply patient_cancel_free|].
    rewrite (patient_run upstream req r Hu). by do 2 eexists.
Qed.

(** X10. A generator whose consumer does not leave finishes, whatever
    the upstream does: its moves are forced, they are an initial part of
    one schedule fixed by the upstream's answer, the generator is finished
    exactly when the schedule is through, and until then exactly one move
    is possible.  The schedule has two moves when the connection fails,
    and three moves, one per chunk and one more per non-empty chunk when
    it succeeds. *)
Theorem generator_finishes upstream req acts st gevs outs :
  Cancel ∉ acts ->
  gen_run upstream acts (GenCreated req) = Some (st, gevs, outs) ->
  (acts `prefix_of` schedule upstream req)
  /\ (st = GenClosed <-> acts = schedule upstream req)
  /\ (st <> GenClosed ->
      exists a, a <> Cancel
        /\ is_Some (gen_run upstream (acts ++ [a]) (GenCreated req))
        /\ forall a', a' <> Cancel ->
             is_Some (gen_run upstream (acts ++ [a']) (GenCreated req)) ->
             a' = a)
  /\ length (schedule upstream req)
     = match upstream req with
       | ConnectFails _ => 2
       | Connected r =>
           3 + length (resp_chunks r)
             + length (filter bytes_truthy (resp_chunks r))
       end
  /\ length acts <= length (schedule upstream req).
Proof.
  intros Hc Hrun.
  destruct (schedule_run upstream req) as (Hcs & sevs & souts & Hs).
  assert (Hpre : acts `prefix_of` schedule upstream req)
    by (by eapply cancel_free_run_prefix).
  split_and!.
  - done.
  - split.
    + intros ->. by eapply complete_run_unique.
    + intros ->. rewrite Hs in Hrun. by simplify_eq.
  - intros Hst.
    assert (Hone : exists a, a <> Cancel
              /\ is_Some (event_generator upstream a st)).
    { destruct st as [r|r|[|c rest] [e|]|rest fin|]; try done.
      - exists Next. by split; [|eexists].
      - exists Arrive. split; [done|]. cbn.
        destruct (upstream r); [destruct (gen_except _)|]; by eexists.
      - exists Arrive. split; [done|]. cbn.
        destruct (gen_except _); by eexists.
      - exists Arrive. by split; [|eexists].
      - exists Arrive. split; [done|]. cbn.
        destruct (bytes_truthy c); by eexists.
      - exists Arrive. split; [done|]. cbn.
        destruct (bytes_truthy c); by eexists.
      - exists Next. by split; [|eexists]. }
    assert (Hlast : forall a,
              is_Some (gen_run upstream (acts ++ [a]) (GenCreated req))
              <-> is_Some (event_generator upstream a st)).
    { intros a. rewrite gen_run_app, Hrun. cbn.
      destruct (event_generator upstream a st) as [[[s1 evs1] out1]|]; cbn.
      - split; by eexists.
      - split; by intros [? ?]. }
    destruct Hone as (a & Ha & Hsome). exists a. split_and!; [done| |].
    + by apply Hlast.
    + intros a' Ha' Hsome'%Hlast.
      by apply (gen_step_unique upstream a' a st).
  - unfold schedule. destruct (upstream req); [done|apply patient_length].
  - by apply prefix_length.
Qed.

Lemma generator_finishes_witness :
  length (schedule (upstream_chunks [chunk_a; chunk_b; chunk_c])
            (upstream_request default_config request_stream)) = 9
  /\ ([Next; Arrive; Arrive]
      `prefix_of` schedule (upstream_chunks [chunk_a; chunk_b; chunk_c])
                    (upstream_request default_config request_stream)).
Proof.
  destruct (generator_finishes (upstream_chunks [chunk_a; chunk_b; chunk_c])
              (upstream_request default_config request_stream)
              [Next; Arrive; Arrive]
              (GenYielded [chunk_b; chunk_c] None)
              [EvOpen (upstream_request default_config request_stream); EvRead]
              [Yield chunk_a])
    as (Hpre & _ & _ & Hlen & _).
  - by intros [?|[?|[?|?%elem_of_nil]%elem_of_cons]%elem_of_cons]%elem_of_cons.
  - vm_compute. reflexivity.
  - split; [|exact Hpre]. rewrite Hlen. vm_compute. reflexivity.
Defined.

(* ===================================================================== *)
(** * What a streaming client cannot see *)
(* ===================================================================== *)

Lemma gen_step_same_body upstream upstream' a s :
  (forall req, same_body (upstream req) (upstream' req)) ->
  event_generator upstream a s = event_generator upstream' a s.
Proof.
  intros Hsame. destruct a, s; try done. cbn.
  specialize (Hsame req).
  destruct (upstream req), (upstream' req); cbn in Hsame; try done.
  - by subst.
  - destruct Hsame as [-> ->]. done.
Qed.

(** X11. In streaming mode the status and the headers of the upstream
    response never reach the client: two upstreams whose answers differ
    only there give the same response of the handler, and the same state,
    events and outputs in every run of its generator, from every state. *)
Theorem streaming_hides_upstream_head loads upstream upstream' cfg request :
  (forall req, same_body (upstream req) (upstream' req)) ->
  classify loads (request_body request) = io_ret true ->
  proxy_chat_completions loads upstream cfg request
  = proxy_chat_completions loads upstream' cfg request
  /\ forall acts s, gen_run upstream acts s = gen_run upstream' acts s.
Proof.
  intros Hsame Hc. split.
  - by rewrite !handler_streaming.
  - induction acts as [|a acts IH]; intros s; [done|].
    cbn [gen_run]. rewrite (gen_step_same_body upstream upstream') by done.
    destruct (event_generator upstream' a s) as [[[s1 evs1] out1]|]; [|done].
    cbn. by rewrite IH.
Qed.

Lemma streaming_hides_upstream_head_witness :
  let unauthorized (_ : UpstreamRequest) :=
    Connected {| status_code := 401;
                 resp_headers := [("www-authenticate", "Bearer")];
                 resp_chunks := [chunk_a; chunk_b];
                 resp_end := None |} in
  let req := upstream_request default_config request_stream in
  gen_run (upstream_chunks [chunk_a; chunk_b]) (patient [chunk_a; chunk_b])
    (GenCreated req)
  = gen_run unauthorized (patient [chunk_a; chunk_b]) (GenCreated req).
Proof.
  intros unauthorized req.
  apply (streaming_hides_upstream_head json_loads_utf8
           (upstream_chunks [chunk_a; chunk_b]) unauthorized
           default_config request_stream).
  - intros r. cbn. split; reflexivity.
  - vm_compute. reflexivity.
Defined.

(* ===================================================================== *)
(** * The debug output *)
(* ===================================================================== *)

Lemma printed_app evs1 evs2 : printed (evs1 ++ evs2) = printed evs1 ++ printed evs2.
Proof. apply omap_app. Qed.

Lemma printed_reads n : printed (replicate n EvRead) = [].
Proof. induction n; [done|]. exact IHn. Qed.

Lemma gen_except_printed e :
  printed (gen_except e).1 = (if is_Exception e then [except_msg e] else [])
  /\ (gen_except e).2
     = (if is_Exception e then StopAsyncIteration else Propagate e).
Proof. by destruct e. Qed.

(** X12. Whenever the classification succeeds the handler prints three
    lines, in this order and before it contacts the upstream: the body,
    the normalized URL and the outbound headers.  Nothing else is printed
    and nothing of the upstream's answer.  The headers printed are the
    ones sent, so every inbound header the upstream receives is in the
    output, a client credential included. *)
Theorem handler_debug_log loads upstream cfg request flag :
  classify loads (request_body request) = io_ret flag ->
  let evs := (proxy_chat_completions loads upstream cfg request).1 in
  (exists rest, evs = debug_prints cfg request ++ rest /\ printed rest = [])
  /\ printed evs
     = [DebugBody (request_body request);
        DebugUrl (rstrip_slash (UPSTREAM_BASE_URL cfg) +:+ "/chat/completions");
        DebugHeaders (_filtered_headers_for_upstream (request_headers request))]
  /\ (forall req, req ∈ opened evs ->
        DebugUrl (up_url req) ∈ printed evs
        /\ DebugHeaders (up_headers req) ∈ printed evs)
  /\ (forall k v,
        dict_wf (request_headers request) ->
        (k, v) ∈ request_headers request ->
        lower k ∉ hop_by_hop_upstream ->
        exists h, DebugHeaders h ∈ printed evs /\ (k, v) ∈ h)
  /\ (forall upstream',
        printed (proxy_chat_completions loads upstream' cfg request).1
        = printed evs).
Proof.
  intros Hc evs.
  assert (Hall : forall up,
            exists rest,
              (proxy_chat_completions loads up cfg request).1
              = debug_prints cfg request ++ rest
              /\ printed rest = []
              /\ forall req, req ∈ opened rest -> req = upstream_request cfg request).
  { intros up. destruct flag.
    - exists []. rewrite handler_streaming by done. cbn [fst].
      split_and!; [by rewrite app_nil_r|done|by intros ? ?%elem_of_nil].
    - destruct (up (upstream_request cfg request)) as [e|r] eqn:Hu.
      + eexists. rewrite (handler_connect_fails _ _ _ _ e) by done. cbn [fst].
        split_and!; [done|done|].
        by intros req ->%list_elem_of_singleton.
      + destruct (resp_end r) as [e|] eqn:He.
        * eexists. rewrite (handler_read_fails _ _ _ _ r e) by done. cbn [fst].
          split_and!; [done| |].
          -- cbn. by rewrite printed_app, printed_reads.
          -- cbn. rewrite opened_app, opened_reads. cbn.
             by intros req ->%list_elem_of_singleton.
        * eexists. rewrite (handler_buffered _ _ _ _ r) by done. cbn [fst].
          split_and!; [done| |].
          -- cbn. by rewrite printed_app, printed_reads.
          -- cbn. rewrite opened_app, opened_reads. cbn.
             by intros req ->%list_elem_of_singleton. }
  assert (Hpr : forall up,
            printed (proxy_chat_completions loads up cfg request).1
            = [DebugBody (request_body request);
               DebugUrl (rstrip_slash (UPSTREAM_BASE_URL cfg) +:+ "/chat/completions");
               DebugHeaders (_filtered_headers_for_upstream (request_headers request))]).
  { intros up. destruct (Hall up) as (rest & -> & Hr & _).
    by rewrite printed_app, Hr. }
  destruct (Hall upstream) as (rest & Hevs & Hrest & Hopen).
  split_and!.
  - by exists rest.
  - apply Hpr.
  - intros req Hin. unfold evs in *. rewrite Hevs, opened_app in Hin.
    apply elem_of_app in Hin as [Hin|Hin]; [by apply elem_of_nil in Hin|].
    apply Hopen in Hin as ->. rewrite Hpr. cbn [up_url up_headers upstream_request].
    unfold upstream_url. split.
    + apply elem_of_cons; right. apply elem_of_cons; by left.
    + apply elem_of_cons; right. apply elem_of_cons; right.
      apply elem_of_cons; by left.
  - intros k v Hwf Hin Hk. eexists. unfold evs. rewrite Hpr. split.
    + apply elem_of_cons; right. apply elem_of_cons; right.
      apply elem_of_cons; by left.
    + by apply (header_filter_elem_iff ToUpstream).
  - intros up. unfold evs. by rewrite !Hpr.
Qed.

Lemma handler_debug_log_witness :
  exists h,
    DebugHeaders h
      ∈ printed (proxy_chat_completions json_loads_utf8 upstream_json
                   default_config request_plain).1
    /\ ("authorization", "Bearer client-token") ∈ h.
Proof.
  destruct (handler_debug_log json_loads_utf8 upstream_json default_config
              request_plain false)
    as (_ & _ & _ & Hleak & _).
  - vm_compute. reflexivity.
  - apply (Hleak "authorization" "Bearer client-token").
    + unfold dict_wf. apply (bool_decide_unpack _). vm_compute. exact I.
    + apply (bool_decide_unpack _). vm_compute. exact I.
    + apply (bool_decide_unpack _). vm_compute. exact I.
Defined.

Section DebugLog.
Variable upstream : UpstreamRequest -> connect_result.

Lemma gen_step_printed a s s1 evs1 out1 :
  event_generator upstream a s = Some (s1, evs1, out1) ->
  (s1 <> GenClosed /\ printed evs1 = [] /\ a <> Cancel
   /\ failure_of upstream s1 = failure_of upstream s)
  \/ (s1 = GenClosed /\ printed evs1 = []
      /\ (a = Cancel
          \/ forall e, failure_of upstream s = Some e -> is_Exception e = false))
  \/ (s1 = GenClosed /\ a <> Cancel
      /\ exists e, failure_of upstream s = Some e /\ is_Exception e = true
           /\ printed evs1 = [except_msg e]
           /\ out1 = Some StopAsyncIteration).
Proof.
  intros H.
  destruct s as [r|r|[|c rest] [e|]|rest fin|]; destruct a; cbn in H; simplify_eq;
    try (left; by split_and!);
    try (right; left; split_and!; [done|done|by left]).
  - (* the connection attempt is answered *)
    destruct (upstream r) as [e|r'] eqn:Hu.
    + destruct (gen_except e) as [gevs gout] eqn:Hg. simplify_eq.
      destruct (gen_except_printed e) as [Hp Ho]. rewrite Hg in Hp, Ho.
      cbn [fst snd] in Hp, Ho. cbn [failure_of]. rewrite Hu.
      destruct (is_Exception e) eqn:He.
      * right; right. split_and!; [done|done|].
        exists e. by subst.
      * right; left. split_and!; [done|done|].
        right. by intros ? [= <-].
    + simplify_eq. left. cbn [failure_of]. rewrite Hu. by split_and!.
  - (* the stream fails *)
    destruct (gen_except e) as [gevs gout] eqn:Hg. simplify_eq.
    destruct (gen_except_printed e) as [Hp Ho]. rewrite Hg in Hp, Ho.
    cbn [fst snd] in Hp, Ho. cbn [failure_of].
    destruct (is_Exception e) eqn:He.
    + right; right. split_and!; [done|done|].
      exists e. cbn. by subst.
    + right; left. split_and!; [done|by cbn|].
      right. by intros ? [= <-].
  - (* the stream ends *)
    right; left. split_and!; [done|done|]. right. by intros ? [=].
  - (* a chunk arrives *)
    destruct (bytes_truthy c); simplify_eq; left; by split_and!.
  - destruct (bytes_truthy c); simplify_eq; left; by split_and!.
Qed.

Lemma gen_run_printed acts : forall s st gevs outs,
  gen_run upstream acts s = Some (st, gevs, outs) ->
  (printed gevs = []
   /\ (st = GenClosed -> Cancel ∉ acts ->
       forall e, failure_of upstream s = Some e -> is_Exception e = false))
  \/ (exists e, failure_of upstream s = Some e /\ is_Exception e = true
        /\ printed gevs = [except_msg e]
        /\ st = GenClosed /\ last outs = Some StopAsyncIteration
        /\ Cancel ∉ acts).
Proof.
  induction acts as [|a acts IH]; intros s st gevs outs H.
  - simplify_eq/=. left. split; [done|]. by intros -> _ e [=].
  - cbn in H.
    destruct (event_generator upstream a s) as [[[s1 evs1] out1]|] eqn:E1; [|done].
    cbn in H.
    destruct (gen_run upstream acts s1) as [[[s2 evs2] outs2]|] eqn:E2; [|done].
    simplify_eq/=. rewrite printed_app.
    destruct (gen_step_printed _ _ _ _ _ E1)
      as [(Hs1 & Hp & Ha & Hf)|[(-> & Hp & Hwhy)|(-> & Ha & e & Hf & He & Hp & ->)]].
    + rewrite Hp. cbn [app]. rewrite <- Hf.
      destruct (IH _ _ _ _ E2) as [[Hp2 Hno]|(e & Hf2 & He & Hp2 & -> & Hl & Hc)].
      * left. split; [done|]. intros -> [_ Hc]%not_elem_of_cons. by apply Hno.
      * right. exists e. split_and!; try done.
        -- destruct outs2 as [|o outs2]; [done|].
           destruct out1; cbn; [|done]. done.
        -- apply not_elem_of_cons. by split.
    + apply gen_run_closed in E2 as (-> & -> & -> & ->).
      left. rewrite Hp. split; [done|].
      intros _ [Ha _]%not_elem_of_cons.
      destruct Hwhy as [->|Hwhy]; [done|exact Hwhy].
    + apply gen_run_closed in E2 as (-> & -> & -> & ->).
      right. exists e. rewrite Hp. split_and!; try done.
      apply not_elem_of_cons. split; [done|by intros ?%elem_of_nil].
Qed.
End DebugLog.

(** X13. A generator prints at most one line, and only as its last act:
    the line of the [except] clause that caught the exception which ended
    it.  It prints exactly when it has finished without being cancelled
    and the connection or the stream failed with an [Exception]; its
    consumer then sees an ordinary end of the stream.  A cancelled
    generator and one whose stream ends normally print nothing. *)
Theorem generator_debug_log upstream req acts st gevs outs :
  gen_run upstream acts (GenCreated req) = Some (st, gevs, outs) ->
  (printed gevs = []
   \/ exists e, failure_of upstream (GenCreated req) = Some e
        /\ printed gevs = [except_msg e]
        /\ last outs = Some StopAsyncIteration)
  /\ (printed gevs <> []
      <-> st = GenClosed /\ (Cancel ∉ acts)
          /\ exists e, failure_of upstream (GenCreated req) = Some e
               /\ is_Exception e = true).
Proof.
  intros H.
  destruct (gen_run_printed upstream _ _ _ _ _ H)
    as [[Hp Hno]|(e & Hf & He & Hp & -> & Hl & Hc)].
  - split; [by left|]. split; [done|].
    intros (-> & Hc & e & Hf & He).
    rewrite (Hno eq_refl Hc e Hf) in He. done.
  - split; [right; by exists e|].
    split; [|by rewrite Hp].
    intros _. split_and!; [done|done|by exists e].
Qed.

Lemma generator_debug_log_witness :
  exists gevs,
    (fun out => out.1.2)
      <$> gen_run (upstream_broken [chunk_a]) (patient [chunk_a])
            (GenCreated (upstream_request default_config request_stream))
    = Some gevs
    /\ printed gevs = [DebugStreamError (TransportError "ReadError")].
Proof.
  eexists. split; [vm_compute; reflexivity|].
  destruct (generator_debug_log (upstream_broken [chunk_a])
              (upstream_request default_config request_stream)
              (patient [chunk_a]) GenClosed _ _ ltac:(vm_compute; reflexivity))
    as [[Hp|(e & Hf & Hp & _)] _].
  - vm_compute in Hp. discriminate Hp.
  - vm_compute in Hf. injection Hf as <-. vm_compute. reflexivity.
Defined.
